(** * benchq: test utilities and cost-estimation wrappers

    A shallow embedding of the Python code of the repository:

    - [tests/benchq/compilation/test_graph_sim_mini.py]: the boolean
      symplectic helpers ([_bool_dot], [commutes],
      [check_tableau_entries_commute]), the tableau comparison
      ([assert_tableaus_correspond_to_the_same_stabilizer_state]), the ICM
      conversion ([get_icm]) and the reference tableau ([get_target_tableau]);
    - [src/benchq/resource_estimation/openfermion_re.py]: the single
      factorized QPE costing;
    - [examples/ex_1_from_qasm.py]: the QASM example pipeline.

    Python exceptions are values of [exn]; a computation that may raise
    returns [result A = exn + A]. *)

From Stdlib Require Import ZArith String List Bool Lia.
From stdpp Require Import gmap strings list.

Local Open Scope string_scope.
Local Open Scope list_scope.
Local Open Scope Z_scope.

(** ** Exceptions *)

Module Py.

(** The exceptions the embedded code raises itself, or that the Python
    runtime raises inside it.  [LibraryError] stands for any exception that
    comes out of a call into a third-party package.

    [UncheckedRead] is not an exception.  The functions compiled with
    [@njit] index their arrays without a bounds check: a read outside of an
    array raises nothing and goes on with whatever the memory holds.  A run
    that makes such a read ends here in [UncheckedRead], and nothing is
    stated about the value the compiled code would go on with. *)
Inductive exn : Type :=
| ValueError (msg : string)
| IndexError
| KeyError (key : Z)
| AssertionError
| LibraryError (origin : string)
| UncheckedRead.

Definition result (A : Type) : Type := exn + A.

Definition ret {A : Type} (a : A) : result A := inr a.
Definition raise {A : Type} (e : exn) : result A := inl e.

(** A read outside of an array in compiled code. *)
Definition unchecked {A : Type} : result A := inl UncheckedRead.

Definition bind {A B : Type} (m : result A) (k : A -> result B) : result B :=
  match m with
  | inl e => inl e
  | inr a => k a
  end.

(** The [assert] statement. *)
Definition assert_ (b : bool) : result unit :=
  if b then ret tt else raise AssertionError.

(** A left fold whose body may raise: the [for] loops of the source. *)
Fixpoint foldM {S X : Type} (f : S -> X -> result S) (s : S) (xs : list X)
  : result S :=
  match xs with
  | [] => ret s
  | x :: xs' => bind (f s x) (fun s' => foldM f s' xs')
  end.

(** [range(n)] over Python integers; it is empty when [n] is not positive. *)
Definition range (n : Z) : list Z := map Z.of_nat (seq 0 (Z.to_nat n)).

End Py.

Import Py.

Notation "x <- m ;;; k" := (bind m (fun x => k))
  (at level 100, m at next level, right associativity, only parsing).

(** ** Boolean symplectic vectors and tableaus *)

Module Tableau.

(** [np.logical_and] on one-dimensional arrays, with NumPy's broadcasting:
    equal lengths are combined elementwise, a length-one array is stretched,
    anything else is a [ValueError].  The text of the message is NumPy's;
    the compiled code words it differently, and nothing below depends on
    it. *)
Definition logical_and (x y : list bool) : result (list bool) :=
  if (length x =? length y)%nat then ret (zip_with andb x y)
  else if (length x =? 1)%nat then ret (map (andb (hd false x)) y)
  else if (length y =? 1)%nat then ret (map (fun a => andb a (hd false y)) x)
  else raise (ValueError "operands could not be broadcast together").

(** [_bool_dot]: [ans = array_and[0]], then [ans = ans xor i] for the
    remaining entries.  The function is compiled with [@njit]: on an empty
    array the read of [array_and[0]] is unchecked. *)
Definition _bool_dot (x y : list bool) : result bool :=
  array_and <- logical_and x y ;;;
  match array_and with
  | [] => unchecked
  | a0 :: rest => ret (fold_left xorb rest a0)
  end.

(** [commutes]: the slices [s[:n]] and [s[n:]] are [take n] and [drop n]. *)
Definition commutes (stab_1 stab_2 : list bool) : result bool :=
  let n_qubits := (length stab_1 / 2)%nat in
  comm1 <- _bool_dot (take n_qubits stab_1) (drop n_qubits stab_2) ;;;
  comm2 <- _bool_dot (drop n_qubits stab_1) (take n_qubits stab_2) ;;;
  ret (negb (xorb comm1 comm2)).

(** The words of the documentation: the inner product over the two-element
    field, as a sum of products reduced modulo two, and as a parity. *)
Definition parity (l : list bool) : bool := fold_right xorb false l.

Definition bit (b : bool) : nat := if b then 1%nat else 0%nat.

Definition inner_product_mod2 (x y : list bool) : bool :=
  (list_sum (zip_with (fun a b => (bit a * bit b)%nat) x y) mod 2 =? 1)%nat.

(** A tableau is a boolean matrix, one stabilizer per row; [shape] is its
    NumPy shape (rows, columns). *)
Definition shape (tableau : list (list bool)) : nat * nat :=
  (length tableau, length (hd [] tableau)).

(** The inner loop of [check_tableau_entries_commute]:
    [for j in range(i, n_qubits)], leaving with [False] at the first pair
    that does not commute.  The function is compiled with [@njit]:
    indexing a row that is not there is an unchecked read. *)
Fixpoint check_from (tableau_1 tableau_2 : list (list bool)) (i : nat)
    (js : list nat) : result bool :=
  match js with
  | [] => ret true
  | j :: js' =>
      match tableau_1 !! i, tableau_2 !! j with
      | Some row_1, Some row_2 =>
          c <- commutes row_1 row_2 ;;;
          if c then check_from tableau_1 tableau_2 i js' else ret false
      | _, _ => unchecked
      end
  end.

(** The outer loop, [for i in range(n_qubits)]. *)
Fixpoint check_rows (tableau_1 tableau_2 : list (list bool)) (n_qubits : nat)
    (rows : list nat) : result bool :=
  match rows with
  | [] => ret true
  | i :: rows' =>
      c <- check_from tableau_1 tableau_2 i (seq i (n_qubits - i)) ;;;
      if c then check_rows tableau_1 tableau_2 n_qubits rows' else ret false
  end.

Definition check_tableau_entries_commute (tableau_1 tableau_2 : list (list bool))
  : result bool :=
  let n_qubits := (length tableau_1 / 2)%nat in
  check_rows tableau_1 tableau_2 n_qubits (seq 0 n_qubits).

(** The truth value of a function object: [assert f], with [f] a function
    that is not called, tests the object, and a function object is true. *)
Definition function_object_truth {A B : Type} (f : A -> B) : bool := true.

Section Assert.

(** [np.linalg.matrix_rank], a NumPy routine. *)
Variable matrix_rank : list (list bool) -> nat.

Definition assert_tableaus_correspond_to_the_same_stabilizer_state
    (tableau_1 tableau_2 : list (list bool)) : result unit :=
  _ <- assert_ (bool_decide (shape tableau_1 = shape tableau_2)) ;;;
  let n_qubits := length tableau_2 in
  _ <- assert_ (function_object_truth
                  (fun t : list (list bool) * list (list bool) =>
                     check_tableau_entries_commute t.1 t.2)) ;;;
  _ <- assert_ (matrix_rank tableau_1 =? n_qubits)%nat ;;;
  _ <- assert_ (matrix_rank tableau_2 =? n_qubits)%nat ;;;
  ret tt.

End Assert.

(** The rank of a 0/1 matrix over the rationals, by fraction-free Gaussian
    elimination on the columns: what [matrix_rank] returns on the small
    exact matrices used below. *)
Definition eliminate (pivot row : list Z) : list Z :=
  tl (zip_with (fun p r => hd 0 pivot * r - hd 0 row * p) pivot row).

Fixpoint split_pivot (m : list (list Z)) : option (list Z * list (list Z)) :=
  match m with
  | [] => None
  | row :: m' =>
      if Z.eqb (hd 0 row) 0 then
        match split_pivot m' with
        | None => None
        | Some (pivot, others) => Some (pivot, row :: others)
        end
      else Some (row, m')
  end.

Fixpoint rank_columns (columns : nat) (m : list (list Z)) : nat :=
  match columns with
  | O => O
  | S k =>
      match split_pivot m with
      | None => rank_columns k (map tl m)
      | Some (pivot, others) => S (rank_columns k (map (eliminate pivot) others))
      end
  end.

Definition exact_rank (tableau : list (list bool)) : nat :=
  rank_columns (length (hd [] tableau))
    (map (map (fun b : bool => if b then 1 else 0)) tableau).

End Tableau.

Import Tableau.

(** ** Circuits and the ICM conversion *)

Module Circuits.

(** A gate is known to this code by its name; its parameters are carried
    along untouched. *)
Record Gate : Type := mkGate { name : string; params : list Z }.

(** [op.gate] and [op.qubit_indices]. *)
Record GateOperation : Type :=
  mkOp { gate : Gate; qubit_indices : list Z }.

Record Circuit : Type :=
  mkCircuit { operations : list GateOperation; n_qubits : Z }.

(** [Circuit(ops)] without an explicit size: the size is one more than the
    largest qubit index, zero without operations. *)
Definition circuit_size_by_operations (ops : list GateOperation) : Z :=
  fold_right Z.max (-1) (concat (map qubit_indices ops)) + 1.

Definition Circuit_of (ops : list GateOperation) : Circuit :=
  mkCircuit ops (circuit_size_by_operations ops).

(** [CNOT(control, target)]. *)
Definition CNOT (control target : Z) : GateOperation :=
  mkOp (mkGate "CNOT" []) [control; target].

(** Calling [op.gate] on a list of indices: the same gate on other qubits. *)
Definition gate_call (g : Gate) (indices : list Z) : GateOperation :=
  mkOp g indices.

(** The qubit indices of an operation are those of a circuit of [n]
    qubits. *)
Definition within (n : Z) (op : GateOperation) : Prop :=
  Forall (fun q => 0 <= q < n) (qubit_indices op).

(** Every qubit index of the circuit is below its [n_qubits]. *)
Definition well_sized (c : Circuit) : Prop :=
  0 <= n_qubits c /\ Forall (within (n_qubits c)) (operations c).

End Circuits.

Import Circuits.

Module Icm.

(** The three variables [get_icm] updates in its loop. *)
Record icm_state : Type := mkIcm {
  compiled_qubit_index : gmap Z Z;
  icm_circuit : list GateOperation;
  icm_circuit_n_qubits : Z
}.

(** Body of the loop of the first branch, for one pair of
    [zip(op.qubit_indices, compiled_qubits)]. *)
Definition decompose_qubit (st : icm_state) (pair : Z * Z) : icm_state :=
  let '(original_qubit, compiled_qubit) := pair in
  let n := icm_circuit_n_qubits st + 1 in
  mkIcm (<[original_qubit := n]> (compiled_qubit_index st))
        (icm_circuit st ++ [CNOT compiled_qubit n])
        n.

(** Body of the loop of the [RESET] branch. *)
Definition reset_qubit (st : icm_state) (pair : Z * Z) : icm_state :=
  let '(original_qubit, compiled_qubit) := pair in
  let n := icm_circuit_n_qubits st + 1 in
  mkIcm (<[original_qubit := n]> (compiled_qubit_index st))
        (icm_circuit st)
        n.

(** [[compiled_qubit_index[i] for i in qubits]]: a missing key is a
    [KeyError]. *)
Fixpoint lookup_all (index : gmap Z Z) (qubits : list Z) : result (list Z) :=
  match qubits with
  | [] => ret []
  | i :: rest =>
      match index !! i with
      | None => raise (KeyError i)
      | Some v => vs <- lookup_all index rest ;;; ret (v :: vs)
      end
  end.

Definition icm_step (gates_to_decompose : list string) (st : icm_state)
    (op : GateOperation) : result icm_state :=
  let compiled_qubits :=
    map (fun qubit => default qubit (compiled_qubit_index st !! qubit))
        (qubit_indices op) in
  if bool_decide (name (gate op) ∈ gates_to_decompose) then
    ret (fold_left decompose_qubit (zip (qubit_indices op) compiled_qubits) st)
  else if bool_decide (name (gate op) = "RESET") then
    ret (fold_left reset_qubit (zip (qubit_indices op) compiled_qubits) st)
  else
    indices <- lookup_all (compiled_qubit_index st) (qubit_indices op) ;;;
    ret (mkIcm (compiled_qubit_index st)
               (icm_circuit st ++ [gate_call (gate op) indices])
               (icm_circuit_n_qubits st)).

Definition initial_state (circuit : Circuit) : icm_state :=
  mkIcm (list_to_map (map (fun i => (i, i)) (range (n_qubits circuit))))
        []
        (n_qubits circuit - 1).

Definition get_icm (circuit : Circuit) (gates_to_decompose : list string)
  : result Circuit :=
  st <- foldM (icm_step gates_to_decompose) (initial_state circuit)
              (operations circuit) ;;;
  ret (Circuit_of (icm_circuit st)).

Definition default_gates_to_decompose : list string := ["T"; "T_Dagger"; "RZ"].

End Icm.

Import Icm.

(** ** The ICM conversion in the words of its description

    The description speaks of the current compiled index of every qubit and
    of the highest index used so far.  Here the first is a total function
    and the second is computed from the list of all indices handed out:
    the qubits of the input circuit and every ancilla allocated since. *)

Module IcmDescription.

Definition highest_index (used : list Z) : Z := fold_right Z.max (-1) used.

Definition remap (compiled : Z -> Z) (qubit ancilla : Z) : Z -> Z :=
  fun q => if Z.eqb q qubit then ancilla else compiled q.

(** One fresh ancilla per qubit of the operation, each one past the highest
    index used so far; every qubit is remapped to its ancilla. *)
Fixpoint allocate (compiled : Z -> Z) (used : list Z) (qubits : list Z)
  : (Z -> Z) * list Z * list Z :=
  match qubits with
  | [] => (compiled, used, [])
  | q :: rest =>
      let ancilla := highest_index used + 1 in
      let '(compiled', used', ancillas) :=
        allocate (remap compiled q ancilla) (ancilla :: used) rest in
      (compiled', used', ancilla :: ancillas)
  end.

Fixpoint icm_operations (gates_to_decompose : list string)
    (compiled : Z -> Z) (used : list Z) (ops : list GateOperation)
  : list GateOperation :=
  match ops with
  | [] => []
  | op :: ops' =>
      let current := map compiled (qubit_indices op) in
      let '(compiled', used', ancillas) :=
        allocate compiled used (qubit_indices op) in
      if bool_decide (name (gate op) ∈ gates_to_decompose) then
        zip_with CNOT current ancillas
          ++ icm_operations gates_to_decompose compiled' used' ops'
      else if bool_decide (name (gate op) = "RESET") then
        icm_operations gates_to_decompose compiled' used' ops'
      else
        gate_call (gate op) current
          :: icm_operations gates_to_decompose compiled used ops'
  end.

(** The indices in use when the conversion starts: the qubits the circuit
    declares and every qubit its operations act on. *)
Definition indices_in_use (circuit : Circuit) : list Z :=
  range (n_qubits circuit)
  ++ concat (map qubit_indices (operations circuit)).

(** [get_icm] does what the description says: it returns a circuit, and the
    operations of that circuit are the ones the description emits when
    every qubit starts compiled to itself. *)
Definition as_described (circuit : Circuit)
    (gates_to_decompose : list string) : Prop :=
  exists icm,
    get_icm circuit gates_to_decompose = ret icm
    /\ operations icm
       = icm_operations gates_to_decompose (fun q => q)
           (indices_in_use circuit) (operations circuit).

(** The dictionary of the code and the function of the description agree
    on the qubits of the input circuit. *)
Definition agree (n : Z) (index : gmap Z Z) (compiled : Z -> Z) : Prop :=
  forall q, 0 <= q < n -> index !! q = Some (compiled q).

End IcmDescription.

Import IcmDescription.

(** ** The reference tableau *)

Module Target.

(** The methods of [stim.TableauSimulator] that [get_target_tableau] calls. *)
Inductive stim_method : Type :=
| stim_x | stim_y | stim_z | stim_cx | stim_s_dag | stim_s
| stim_sqrt_x | stim_sqrt_x_dag | stim_h | stim_cz.

Section GetTargetTableau.

(** The simulator and the tableau it yields belong to stim and NumPy. *)
Variables TableauSimulator NumpyTableau : Type.
Variable new_simulator : TableauSimulator.
Variable stim_call :
  stim_method -> list Z -> TableauSimulator -> TableauSimulator.
Variable get_tableau_from_stim_simulator : TableauSimulator -> NumpyTableau.

(** The body of the loop: the chain of comparisons on [op.gate.name]. *)
Definition target_step (sim : TableauSimulator) (op : GateOperation)
  : result TableauSimulator :=
  let nm := name (gate op) in
  let qs := qubit_indices op in
  if String.eqb nm "I" then ret sim
  else if String.eqb nm "X" then ret (stim_call stim_x qs sim)
  else if String.eqb nm "Y" then ret (stim_call stim_y qs sim)
  else if String.eqb nm "Z" then ret (stim_call stim_z qs sim)
  else if String.eqb nm "CNOT" then ret (stim_call stim_cx qs sim)
  else if String.eqb nm "S_Dagger" then ret (stim_call stim_s_dag qs sim)
  else if String.eqb nm "S" then ret (stim_call stim_s qs sim)
  else if String.eqb nm "SX" then ret (stim_call stim_sqrt_x qs sim)
  else if String.eqb nm "SX_Dagger" then
    ret (stim_call stim_sqrt_x_dag qs sim)
  else if String.eqb nm "H" then ret (stim_call stim_h qs sim)
  else if String.eqb nm "CZ" then ret (stim_call stim_cz qs sim)
  else raise (ValueError ("Gate " ++ nm ++ " not supported.")%string).

Definition get_target_tableau (circuit : Circuit) : result NumpyTableau :=
  sim <- foldM target_step new_simulator (operations circuit) ;;;
  ret (get_tableau_from_stim_simulator sim).

(** The table the description gives: the simulator operation that
    corresponds to each supported gate name. *)
Definition corresponding_method : list (string * stim_method) :=
  [ ("X", stim_x); ("Y", stim_y); ("Z", stim_z); ("CNOT", stim_cx);
    ("S_Dagger", stim_s_dag); ("S", stim_s); ("SX", stim_sqrt_x);
    ("SX_Dagger", stim_sqrt_x_dag); ("H", stim_h); ("CZ", stim_cz) ].

Definition method_of (nm : string) : option stim_method :=
  snd <$> find (fun entry => String.eqb nm (fst entry)) corresponding_method.

(** A gate name is handled when it is [I] or has a corresponding method. *)
Definition handled (op : GateOperation) : bool :=
  String.eqb (name (gate op)) "I" || bool_decide (is_Some (method_of (name (gate op)))).

(** Applying, in order, the corresponding method of every operation that
    has one. *)
Definition apply_corresponding (sim : TableauSimulator)
    (ops : list GateOperation) : TableauSimulator :=
  fold_left
    (fun s op =>
       match method_of (name (gate op)) with
       | Some m => stim_call m (qubit_indices op) s
       | None => s
       end)
    ops sim.

End GetTargetTableau.

Arguments target_step {TableauSimulator}.
Arguments get_target_tableau {TableauSimulator NumpyTableau}.
Arguments apply_corresponding {TableauSimulator}.

End Target.

Import Target.

(** ** Single factorized QPE costing *)

Module OpenFermion.

Section SingleFactorized.

(** Arrays, floating-point numbers and the records of the costing
    packages are values of those packages. *)
Variables Matrix Eri Factors Real Duration : Type.
Variables CostEstimate AlgorithmParameters : Type.

(** [h1.shape[0]]. *)
Variable shape0 : Matrix -> Z.
(** [np.transpose(eri, (2, 3, 0, 1))] and [np.allclose]. *)
Variable transpose_2301 : Eri -> Eri.
Variable allclose : Eri -> Eri -> bool.
(** The calls into the costing packages; each may raise. *)
Variable sf_factorize : Eri -> Z -> result (Eri * Factors).
Variable compute_lambda : Matrix -> Eri -> Factors -> result Real.
Variable sf_compute_cost :
  Z -> Real -> Real -> Z -> Real -> Z -> result (Z * Z * Z).
Variable cost_estimator :
  Z -> Z -> Duration -> result (CostEstimate * AlgorithmParameters).
(** The attributes read by [_openfermion_result_to_resource_info]. *)
Variable physical_qubit_count : CostEstimate -> Z.
Variable duration_seconds : CostEstimate -> Z.
Variable algorithm_failure_probability : CostEstimate -> Real.
Variable max_allocated_logical_qubits : AlgorithmParameters -> Z.
Variable logical_data_qubit_distance : AlgorithmParameters -> Z.
Variable magic_state_factory_details : AlgorithmParameters -> string.

(** What the function does to the outside, in order: the calls into the
    packages with their arguments, and what it prints. *)
Inductive event : Type :=
| Factorize (eri : Eri) (rank : Z)
| ComputeLambda (h1 : Matrix) (eri_rr : Eri) (LR : Factors)
| ComputeCost (num_spinorb : Z) (lam dE : Real) (L : Z) (chi : Real)
    (stps : Z)
| Printed (text : string) (value : Z)
| CostEstimator (logical_qubits toffoli : Z) (cycle_time : Duration).

(** A computation that may raise and that appends to the list of events. *)
Definition traced (A : Type) : Type := list event -> result A * list event.

Definition tret {A : Type} (a : A) : traced A := fun log => (ret a, log).

Definition traise {A : Type} (e : exn) : traced A :=
  fun log => (raise e, log).

Definition tbind {A B : Type} (m : traced A) (k : A -> traced B)
  : traced B :=
  fun log =>
    match m log with
    | (inl e, log') => (inl e, log')
    | (inr a, log') => k a log'
    end.

(** A call into a package: the event is recorded, the outcome is the
    package's. *)
Definition call {A : Type} (ev : event) (outcome : result A) : traced A :=
  fun log => (outcome, log ++ [ev]).

Definition print (text : string) (value : Z) : traced unit :=
  fun log => (ret tt, log ++ [Printed text value]).

Definition get_single_factorized_qpe_toffoli_and_qubit_cost
    (h1 : Matrix) (eri : Eri) (rank : Z)
    (allowable_phase_estimation_error bits_precision_state_prep : Real)
  : traced (Z * Z) :=
  let num_orb := shape0 h1 in
  let num_spinorb := num_orb * 2 in
  tbind (call (Factorize eri rank) (sf_factorize eri rank))
    (fun '(eri_rr, LR) =>
  tbind (call (ComputeLambda h1 eri_rr LR) (compute_lambda h1 eri_rr LR))
    (fun lam =>
  tbind (call (ComputeCost num_spinorb lam allowable_phase_estimation_error
                 rank bits_precision_state_prep 20000)
              (sf_compute_cost num_spinorb lam
                 allowable_phase_estimation_error rank
                 bits_precision_state_prep 20000))
    (fun first =>
  let stps1 := first.1.1 in
  tbind (call (ComputeCost num_spinorb lam allowable_phase_estimation_error
                 rank bits_precision_state_prep stps1)
              (sf_compute_cost num_spinorb lam
                 allowable_phase_estimation_error rank
                 bits_precision_state_prep stps1))
    (fun '(_, sf_total_toffoli_cost, sf_logical_qubits) =>
  tret (sf_total_toffoli_cost, sf_logical_qubits))))).

Record OpenFermionResourceInfo : Type := mkResourceInfo {
  n_physical_qubits : Z;
  n_logical_qubits : Z;
  total_time_in_seconds : Z;
  code_distance : Z;
  logical_error_rate : Real;
  decoder_info : option unit;
  widget_name : string;
  extra : AlgorithmParameters
}.

Definition _openfermion_result_to_resource_info (cost : CostEstimate)
    (algorithm_parameters : AlgorithmParameters) : OpenFermionResourceInfo :=
  mkResourceInfo
    (physical_qubit_count cost)
    (max_allocated_logical_qubits algorithm_parameters)
    (duration_seconds cost)
    (logical_data_qubit_distance algorithm_parameters)
    (algorithm_failure_probability cost)
    None
    (magic_state_factory_details algorithm_parameters)
    algorithm_parameters.

Definition symmetry_message : string :=
  "ERI do not have (ij | kl) == (kl | ij) symmetry.".

Definition get_single_factorized_qpe_resource_estimate
    (h1 : Matrix) (eri : Eri) (rank : Z) (surface_code_cycle_time : Duration)
    (allowable_phase_estimation_error bits_precision_state_prep : Real)
  : traced OpenFermionResourceInfo :=
  if negb (allclose (transpose_2301 eri) eri) then
    traise (ValueError symmetry_message)
  else
    tbind (get_single_factorized_qpe_toffoli_and_qubit_cost h1 eri rank
             allowable_phase_estimation_error bits_precision_state_prep)
      (fun '(sf_total_toffoli_cost, sf_logical_qubits) =>
    tbind (print "Number of Toffoli's is:" sf_total_toffoli_cost)
      (fun _ =>
    tbind (print "Number of logical qubits is:" sf_logical_qubits)
      (fun _ =>
    tbind (call (CostEstimator sf_logical_qubits sf_total_toffoli_cost
                   surface_code_cycle_time)
                (cost_estimator sf_logical_qubits sf_total_toffoli_cost
                   surface_code_cycle_time))
      (fun '(best_cost, best_params) =>
    tret (_openfermion_result_to_resource_info best_cost best_params))))).

(** An event of the cost estimation: anything but printing. *)
Definition is_costing (ev : event) : bool :=
  match ev with
  | Printed _ _ => false
  | _ => true
  end.

End SingleFactorized.

Arguments Factorize {Matrix Eri Factors Real Duration}.
Arguments ComputeLambda {Matrix Eri Factors Real Duration}.
Arguments ComputeCost {Matrix Eri Factors Real Duration}.
Arguments Printed {Matrix Eri Factors Real Duration}.
Arguments CostEstimator {Matrix Eri Factors Real Duration}.
Arguments get_single_factorized_qpe_toffoli_and_qubit_cost
  {Matrix Eri Factors Real Duration}.
Arguments get_single_factorized_qpe_resource_estimate
  {Matrix Eri Factors Real Duration CostEstimate AlgorithmParameters}.

End OpenFermion.

(** ** The QASM example *)

Module QasmExample.

Section Main.

Variables QuantumCircuit OrquestraCircuit Program : Type.
Variables ErrorBudget ArchitectureModel ResourceInfo : Type.

Variable from_qasm_file : string -> result QuantumCircuit.
Variable import_from_qiskit : QuantumCircuit -> result OrquestraCircuit.
Variable get_program_from_circuit : OrquestraCircuit -> result Program.
(** [ErrorBudget.from_even_split(total_failure_tolerance=1e-3)]. *)
Variable even_split_1e_3 : ErrorBudget.
Variable BASIC_SC_ARCHITECTURE_MODEL : ArchitectureModel.

Record AlgorithmImplementation : Type := mkAlgorithm {
  program : Program;
  error_budget : ErrorBudget;
  n_calls : Z
}.

(** The three transformers and the estimator of the example. *)
Variable transpile_to_native_gates : Program -> result Program.
Variable synthesize_clifford_t : ErrorBudget -> Program -> result Program.
Variable create_big_graph_from_subcircuits : Program -> result Program.
Variable GraphResourceEstimator :
  ArchitectureModel -> AlgorithmImplementation -> result ResourceInfo.

(** Modelled from the spec: [run_custom_resource_estimation_pipeline] of
    [benchq.resource_estimation.graph] is not among the sources.  The
    stages of the pipeline are the transformers, applied to the program
    one after the other in the order of the list, and the estimator turns
    the outcome of the last one into the figures. *)
Definition run_custom_resource_estimation_pipeline
    (algorithm_description : AlgorithmImplementation)
    (estimator : AlgorithmImplementation -> result ResourceInfo)
    (transformers : list (Program -> result Program)) : result ResourceInfo :=
  transformed <-
    foldM (fun prog transformer => transformer prog)
          (program algorithm_description) transformers ;;;
  estimator (mkAlgorithm transformed
               (error_budget algorithm_description)
               (n_calls algorithm_description)).

(** [main]; its value here is what it prints. *)
Definition main (file_name : string) : result ResourceInfo :=
  qiskit_circuit <- from_qasm_file file_name ;;;
  orquestra_circuit <- import_from_qiskit qiskit_circuit ;;;
  quantum_program <- get_program_from_circuit orquestra_circuit ;;;
  let error_budget := even_split_1e_3 in
  let algorithm_description :=
    mkAlgorithm quantum_program error_budget 1 in
  let architecture_model := BASIC_SC_ARCHITECTURE_MODEL in
  run_custom_resource_estimation_pipeline
    algorithm_description
    (GraphResourceEstimator architecture_model)
    [ transpile_to_native_gates;
      synthesize_clifford_t error_budget;
      create_big_graph_from_subcircuits ].

End Main.

Arguments mkAlgorithm {Program ErrorBudget}.
Arguments program {Program ErrorBudget}.
Arguments error_budget {Program ErrorBudget}.
Arguments n_calls {Program ErrorBudget}.
Arguments run_custom_resource_estimation_pipeline
  {Program ErrorBudget ResourceInfo}.
Arguments main
  {QuantumCircuit OrquestraCircuit Program ErrorBudget ArchitectureModel
   ResourceInfo}.

End QasmExample.

(** ** The commutation test as a value *)

Module TableauDescription.

(** The symplectic product of two rows (x | z), negated: what [commutes]
    computes when nothing fails. *)
Definition commute_value (stab_1 stab_2 : list bool) : bool :=
  let n := (length stab_1 / 2)%nat in
  negb (xorb (parity (zip_with andb (take n stab_1) (drop n stab_2)))
             (parity (zip_with andb (drop n stab_1) (take n stab_2)))).

(** Row [i] of the first tableau commutes with row [j] of the second. *)
Definition pair_commutes (tableau_1 tableau_2 : list (list bool))
    (i j : nat) : bool :=
  match tableau_1 !! i, tableau_2 !! j with
  | Some row_1, Some row_2 => commute_value row_1 row_2
  | _, _ => false
  end.

(** Every row of the tableau has [width] entries. *)
Definition rows_of_width (width : nat) (tableau : list (list bool)) : Prop :=
  Forall (fun row => length row = width) tableau.

End TableauDescription.

Import TableauDescription.

(** ** Sizes and bounds of the ICM conversion *)

Module IcmMeasures.

(** An operation that [get_icm] passes on: its gate is not decomposed and
    is not [RESET]. *)
Definition plain (gates_to_decompose : list string) (op : GateOperation)
  : Prop :=
  (name (gate op) ∉ gates_to_decompose) /\ name (gate op) <> "RESET".

(** An operation for which ancillas are allocated. *)
Definition allocates (gates_to_decompose : list string) (op : GateOperation)
  : bool :=
  bool_decide (name (gate op) ∈ gates_to_decompose)
  || bool_decide (name (gate op) = "RESET").

(** The number of ancillas allocated for a list of operations: one per
    qubit of every decomposed operation and of every [RESET]. *)
Fixpoint ancilla_count (gates_to_decompose : list string)
    (ops : list GateOperation) : Z :=
  match ops with
  | [] => 0
  | op :: ops' =>
      (if allocates gates_to_decompose op
       then Z.of_nat (length (qubit_indices op)) else 0)
      + ancilla_count gates_to_decompose ops'
  end.

(** The number of operations emitted: one [CNOT] per qubit of a decomposed
    operation, nothing for a [RESET], one operation otherwise. *)
Fixpoint emitted_count (gates_to_decompose : list string)
    (ops : list GateOperation) : nat :=
  match ops with
  | [] => 0
  | op :: ops' =>
      (if bool_decide (name (gate op) ∈ gates_to_decompose)
       then length (qubit_indices op)
       else if bool_decide (name (gate op) = "RESET") then 0 else 1)%nat
      + emitted_count gates_to_decompose ops'
  end.

(** A qubit index that is not a key of the initial dictionary of a circuit
    of [n] qubits. *)
Definition beyond (n : Z) (q : Z) : bool := negb ((0 <=? q) && (q <? n)).

(** Everything the loop has produced so far lies between zero and the
    counter: the values of the dictionary and the qubits of the emitted
    operations. *)
Definition bounded (st : icm_state) : Prop :=
  (-1 <= icm_circuit_n_qubits st)
  /\ (forall k v, compiled_qubit_index st !! k = Some v ->
                 0 <= v <= icm_circuit_n_qubits st)
  /\ Forall (within (icm_circuit_n_qubits st + 1)) (icm_circuit st).

End IcmMeasures.

Import IcmMeasures.

(** ** The tableau of a graph state *)

Module GraphTableau.

(** An index along an axis of [n] entries, as NumPy reads it: a negative
    index counts from the end, anything outside is an [IndexError]. *)
Definition np_index (n : nat) (i : Z) : result nat :=
  if (0 <=? i) && (i <? Z.of_nat n) then ret (Z.to_nat i)
  else if (- Z.of_nat n <=? i) && (i <? 0) then ret (Z.to_nat (i + Z.of_nat n))
  else raise IndexError.

(** [m[a, b] = True] on a square boolean matrix. *)
Definition set_entry (m : list (list bool)) (a b : Z)
  : result (list (list bool)) :=
  i <- np_index (length m) a ;;;
  j <- np_index (length m) b ;;;
  ret (alter (fun row => <[j := true]> row) i m).

(** [np.identity(n, dtype=bool)] and [np.zeros((n, n), dtype=bool)]. *)
Definition identity (n : nat) : list (list bool) :=
  map (fun i => map (fun k => Nat.eqb k i) (seq 0 n)) (seq 0 n).

Definition zeros (n : nat) : list (list bool) :=
  replicate n (replicate n false).

(** The inner loop: both entries of every neighbor of one vertex. *)
Definition add_neighbors (vertex_id : Z) (all_zs : list (list bool))
    (neighbors : list Z) : result (list (list bool)) :=
  foldM (fun zs neighbor =>
           zs' <- set_entry zs neighbor vertex_id ;;;
           set_entry zs' vertex_id neighbor)
        all_zs neighbors.

(** The loop over [enumerate(vertices)]; a vertex is the pair of its
    local-Clifford class and its list of neighbors. *)
Definition graph_zs (vertices : list (Z * list Z)) : result (list (list bool)) :=
  foldM (fun zs numbered =>
           add_neighbors (Z.of_nat numbered.1) zs numbered.2.2)
        (zeros (length vertices))
        (zip (seq 0 (length vertices)) vertices).

(** What one vertex appends to [cliffords]: six separate tests on its
    class minus one. *)
Definition appended_cliffords (pauli_perm_class : Z) : list (list string) :=
  (if pauli_perm_class =? 0 then [[]] else [])
  ++ (if pauli_perm_class =? 1 then [["s"]] else [])
  ++ (if pauli_perm_class =? 2 then [["h"]] else [])
  ++ (if pauli_perm_class =? 3 then [["h"; "s"; "h"]] else [])
  ++ (if pauli_perm_class =? 4 then [["s"; "h"]] else [])
  ++ (if pauli_perm_class =? 5 then [["h"; "s"]] else []).

Definition collect_cliffords (vertices : list (Z * list Z))
  : list (list string) :=
  fold_left (fun cliffords vertex =>
               cliffords ++ appended_cliffords (vertex.1 - 1))
            vertices [].

Section FromVertices.

Variables TableauSimulator StimTableau NumpyTableau : Type.
Variable new_simulator : TableauSimulator.
(** [stim.Tableau.from_stabilizers] on the Pauli strings (xs, zs); it
    raises when they are not the generators of a stabilizer group. *)
Variable from_stabilizers :
  list (list bool * list bool) -> result StimTableau.
Variable tableau_inverse : StimTableau -> StimTableau.
Variable set_inverse_tableau :
  StimTableau -> TableauSimulator -> TableauSimulator.
Variable stim_call :
  stim_method -> list Z -> TableauSimulator -> TableauSimulator.
Variable get_tableau_from_stim_simulator : TableauSimulator -> NumpyTableau.

(** The operations of one qubit: ["s"] and ["h"] are applied, anything
    else is passed over. *)
Definition apply_cliffords (i : nat) (sim : TableauSimulator)
    (cliffords : list string) : TableauSimulator :=
  fold_left
    (fun s clifford =>
       if String.eqb clifford "s" then stim_call stim_s [Z.of_nat i] s
       else if String.eqb clifford "h" then stim_call stim_h [Z.of_nat i] s
       else s)
    cliffords sim.

(** The last loop, [for i in range(n_qubits)], reading [cliffords[i]]. *)
Definition apply_vertex_cliffords (cliffords : list (list string))
    (sim : TableauSimulator) (qubits : list nat) : result TableauSimulator :=
  foldM (fun s i =>
           match cliffords !! i with
           | None => raise IndexError
           | Some operations => ret (apply_cliffords i s operations)
           end)
        sim qubits.

Definition get_stabilizer_tableau_from_vertices
    (vertices : list (Z * list Z)) : result NumpyTableau :=
  let n_qubits := length vertices in
  let all_xs := identity n_qubits in
  all_zs <- graph_zs vertices ;;;
  let paulis := zip all_xs all_zs in
  let sim := new_simulator in
  tableau <- from_stabilizers paulis ;;;
  let sim := set_inverse_tableau (tableau_inverse tableau) sim in
  let cliffords := collect_cliffords vertices in
  sim <- apply_vertex_cliffords cliffords sim (seq 0 n_qubits) ;;;
  ret (get_tableau_from_stim_simulator sim).

End FromVertices.

Arguments apply_cliffords {TableauSimulator}.
Arguments apply_vertex_cliffords {TableauSimulator}.
Arguments get_stabilizer_tableau_from_vertices
  {TableauSimulator StimTableau NumpyTableau}.

(** The entry of a matrix, [False] outside of it. *)
Definition entry (m : list (list bool)) (i j : nat) : bool :=
  match m !! i with
  | Some row => default false (row !! j)
  | None => false
  end.

(** Vertex [i] lists [j] as a neighbor, or vertex [j] lists [i]. *)
Definition lists_neighbor (vertices : list (Z * list Z)) (i j : nat) : bool :=
  match vertices !! i with
  | Some vertex => existsb (Z.eqb (Z.of_nat j)) vertex.2
  | None => false
  end.

Definition adjacent (vertices : list (Z * list Z)) (i j : nat) : bool :=
  lists_neighbor vertices i j || lists_neighbor vertices j i.

(** Every neighbor is the number of a vertex. *)
Definition neighbors_within (vertices : list (Z * list Z)) : Prop :=
  Forall (fun vertex =>
            Forall (fun neighbor => 0 <= neighbor < Z.of_nat (length vertices))
                   vertex.2)
         vertices.

(** Every class is one of the six local-Clifford classes. *)
Definition classes_within (vertices : list (Z * list Z)) : Prop :=
  Forall (fun vertex => 1 <= vertex.1 <= 6) vertices.

(** The operations of the class of a vertex. *)
Definition class_cliffords (class : Z) : list string :=
  hd [] (appended_cliffords (class - 1)).

End GraphTableau.

Import GraphTableau.

(** ** Concrete inputs *)

Module Examples.

(** The stabilizers X1, X2 and Z1, Z2 on two qubits, as rows (x | z). *)
Definition tableau_xx : list (list bool) :=
  [ [true; false; false; false]; [false; true; false; false] ].

Definition tableau_zz : list (list bool) :=
  [ [false; false; true; false]; [false; false; false; true] ].

(** Stand-ins for the costing packages, over integers: arrays and numbers
    are integers, the factorization keeps the integrals and the rank,
    lambda adds up its arguments, and the costing halves the step count. *)
Definition toy_factorize (eri rank : Z) : result (Z * Z) := ret (eri, rank).

Definition toy_lambda (h1 eri_rr LR : Z) : result Z := ret (h1 + eri_rr + LR).

Definition toy_compute_cost (num_spinorb lam dE L chi stps : Z)
  : result (Z * Z * Z) :=
  ret (stps / 2 + 1, num_spinorb * stps, num_spinorb + L).

Definition toy_cost_estimator (qubits toffoli : Z) (cycle_time : unit)
  : result (Z * Z) :=
  ret (qubits * 1000, toffoli).

(** Integrals are symmetric here when the integer is its own opposite. *)
Definition toy_transpose (eri : Z) : Z := - eri.

Definition toy_allclose (a b : Z) : bool := Z.eqb a b.

(** A circuit on two qubits with a [T] on each, a [RESET] and a [CNOT]. *)
Definition sample_circuit : Circuit :=
  mkCircuit
    [ mkOp (mkGate "H" []) [0];
      mkOp (mkGate "T" []) [0];
      CNOT 0 1;
      mkOp (mkGate "RZ" [3]) [1];
      mkOp (mkGate "RESET" []) [0];
      mkOp (mkGate "H" []) [0];
      mkOp (mkGate "T_Dagger" []) [0] ]
    2.

(** A Clifford circuit on three qubits, with nothing to decompose. *)
Definition clifford_circuit : Circuit :=
  mkCircuit
    [ mkOp (mkGate "H" []) [0];
      mkOp (mkGate "S" []) [0];
      CNOT 0 1;
      mkOp (mkGate "CZ" []) [1; 2] ]
    3.

(** A simulator that only records the calls made on it. *)
Definition recorded_call (m : stim_method) (qubits : list Z)
    (sim : list (stim_method * list Z)) : list (stim_method * list Z) :=
  sim ++ [(m, qubits)].

End Examples.

Import Examples.

(** ** Facts about the boolean helpers *)

Lemma fold_left_xorb_parity (l : list bool) (a : bool) :
  fold_left xorb l a = xorb a (parity l).
Proof.
  revert a. induction l as [|b l IH]; intros a; simpl.
  - by destruct a.
  - rewrite IH. by destruct a, b, (parity l).
Qed.

Lemma inner_product_mod2_parity (x y : list bool) :
  inner_product_mod2 x y = parity (zip_with andb x y).
Proof.
  unfold inner_product_mod2. revert y.
  induction x as [|a x IH]; intros [|b y]; try reflexivity.
  simpl zip_with. simpl list_sum. simpl parity. rewrite <- IH.
  destruct a, b; simpl bit; simpl andb; simpl Nat.mul; simpl Nat.add;
    try (by destruct (_ =? _)%nat).
  set (s := list_sum _).
  assert (Hs : (s mod 2 = 0 \/ s mod 2 = 1)%nat)
    by (pose proof (Nat.mod_upper_bound s 2); lia).
  assert (HS : (S s mod 2 = (1 + s mod 2) mod 2)%nat).
  { replace (S s) with (1 + s)%nat by lia.
    rewrite Nat.Div0.add_mod_idemp_r; reflexivity. }
  rewrite HS. destruct Hs as [-> | ->]; reflexivity.
Qed.

Lemma zip_with_andb_comm (x y : list bool) :
  zip_with andb x y = zip_with andb y x.
Proof.
  revert y. induction x as [|a x IH]; intros [|b y]; simpl; try reflexivity.
  rewrite IH. f_equal. apply andb_comm.
Qed.

Lemma _bool_dot_equal_length (x y : list bool) :
  length x = length y ->
  _bool_dot x y =
    match zip_with andb x y with
    | [] => unchecked
    | a0 :: rest => ret (fold_left xorb rest a0)
    end.
Proof.
  intros Hlen. unfold _bool_dot, logical_and.
  rewrite Hlen, Nat.eqb_refl. reflexivity.
Qed.

Lemma _bool_dot_comm (x y : list bool) :
  length x = length y -> _bool_dot x y = _bool_dot y x.
Proof.
  intros Hlen. rewrite !_bool_dot_equal_length by congruence.
  by rewrite zip_with_andb_comm.
Qed.

(** C9: for boolean vectors of equal length at least one, [_bool_dot]
    returns the inner product modulo two, which is the parity (iterated
    exclusive or) of the elementwise conjunctions. *)
Theorem bool_dot_inner_product (x y : list bool) :
  length x = length y ->
  (1 <= length x)%nat ->
  _bool_dot x y = ret (inner_product_mod2 x y)
  /\ _bool_dot x y = ret (parity (zip_with andb x y)).
Proof.
  intros Hlen Hpos.
  rewrite inner_product_mod2_parity.
  assert (H : _bool_dot x y = ret (parity (zip_with andb x y))).
  { rewrite _bool_dot_equal_length by exact Hlen.
    destruct x as [|a x]; [simpl in Hpos; lia|].
    destruct y as [|b y]; [discriminate|].
    simpl zip_with. cbv iota. rewrite fold_left_xorb_parity. reflexivity. }
  repeat split; try exact H.
Qed.

Lemma bool_dot_inner_product_witness :
  _bool_dot [true; true; false] [true; true; true] = ret false
  /\ _bool_dot [true; false] [true; true] = ret true.
Proof.
  split.
  - exact (proj1 (bool_dot_inner_product [true; true; false]
                    [true; true; true] eq_refl ltac:(simpl; lia))).
  - exact (proj1 (bool_dot_inner_product [true; false] [true; true]
                    eq_refl ltac:(simpl; lia))).
Defined.

Lemma _bool_dot_same_length (x y : list bool) :
  length x = length y ->
  _bool_dot x y =
    if (length x =? 0)%nat then unchecked
    else ret (parity (zip_with andb x y)).
Proof.
  intros Hlen. rewrite _bool_dot_equal_length by exact Hlen.
  destruct x as [|a x], y as [|b y]; try discriminate; try reflexivity.
  simpl zip_with. cbv iota. rewrite fold_left_xorb_parity. reflexivity.
Qed.

(** C10: on two vectors of the same even length the commutation test does
    the same in both orders: the same boolean when the vectors are not
    empty, and the same unchecked read of a first element when they are. *)
Theorem commutes_symmetric (stab_1 stab_2 : list bool) :
  length stab_1 = length stab_2 ->
  Nat.Even (length stab_1) ->
  commutes stab_1 stab_2 = commutes stab_2 stab_1
  /\ ((0 < length stab_1)%nat ->
      exists b, commutes stab_1 stab_2 = ret b /\ commutes stab_2 stab_1 = ret b).
Proof.
  intros Hlen [k Hk]. unfold commutes. rewrite <- Hlen.
  set (n := (length stab_1 / 2)%nat).
  assert (Hn : n = k) by (subst n; rewrite Hk; symmetry; apply Nat.div_unique_exact; lia).
  assert (L1 : length (take n stab_1) = n) by (rewrite length_take; lia).
  assert (L2 : length (take n stab_2) = n) by (rewrite length_take; lia).
  assert (D1 : length (drop n stab_1) = n) by (rewrite length_drop; lia).
  assert (D2 : length (drop n stab_2) = n) by (rewrite length_drop; lia).
  rewrite (_bool_dot_same_length (take n stab_1)) by congruence.
  rewrite (_bool_dot_same_length (drop n stab_1)) by congruence.
  rewrite (_bool_dot_same_length (take n stab_2)) by congruence.
  rewrite (_bool_dot_same_length (drop n stab_2)) by congruence.
  rewrite L1, D1, L2, D2.
  rewrite (zip_with_andb_comm (take n stab_2)).
  rewrite (zip_with_andb_comm (drop n stab_2)).
  destruct (n =? 0)%nat eqn:E; simpl.
  - split; [reflexivity|]. apply Nat.eqb_eq in E. lia.
  - rewrite (xorb_comm (parity (zip_with andb (drop n stab_1) (take n stab_2)))).
    split; [reflexivity|]. intros _. eexists. split; reflexivity.
Qed.

Lemma commutes_symmetric_witness :
  commutes [true; false; false; true] [false; true; true; true]
  = commutes [false; true; true; true] [true; false; false; true].
Proof.
  refine (proj1 (commutes_symmetric [true; false; false; true]
                   [false; true; true; true] eq_refl _)).
  exists 2%nat. reflexivity.
Defined.

(** ** The tableau comparison *)

(** Whatever the tableaus are, the comparison passes exactly when the shapes
    agree and both ranks equal the number of rows of the second tableau. *)
Lemma assert_tableaus_passes_iff (matrix_rank : list (list bool) -> nat)
    (tableau_1 tableau_2 : list (list bool)) :
  assert_tableaus_correspond_to_the_same_stabilizer_state
    matrix_rank tableau_1 tableau_2 = ret tt
  <-> shape tableau_1 = shape tableau_2
      /\ matrix_rank tableau_1 = length tableau_2
      /\ matrix_rank tableau_2 = length tableau_2.
Proof.
  unfold assert_tableaus_correspond_to_the_same_stabilizer_state.
  unfold function_object_truth, assert_, bind, ret, raise.
  case_bool_decide as Hs; simpl.
  - destruct (Nat.eqb_spec (matrix_rank tableau_1) (length tableau_2));
      destruct (Nat.eqb_spec (matrix_rank tableau_2) (length tableau_2));
      simpl; split; try discriminate; try tauto.
  - split; [discriminate | tauto].
Qed.

(** C3: on the tableaus of X1, X2 and of Z1, Z2, which have the same shape
    and full rank, [check_tableau_entries_commute] answers [False], yet the
    comparison raises nothing: the check is named in the [assert] but never
    called. *)
Theorem assert_tableaus_accepts_anticommuting
    (matrix_rank : list (list bool) -> nat) :
  matrix_rank tableau_xx = 2%nat ->
  matrix_rank tableau_zz = 2%nat ->
  check_tableau_entries_commute tableau_xx tableau_zz = ret false
  /\ assert_tableaus_correspond_to_the_same_stabilizer_state
       matrix_rank tableau_xx tableau_zz = ret tt.
Proof.
  intros H1 H2. split; [reflexivity|].
  apply assert_tableaus_passes_iff. repeat split; assumption.
Qed.

Lemma assert_tableaus_accepts_anticommuting_witness :
  exact_rank tableau_xx = 2%nat
  /\ exact_rank tableau_zz = 2%nat
  /\ check_tableau_entries_commute tableau_xx tableau_zz = ret false
  /\ assert_tableaus_correspond_to_the_same_stabilizer_state
       exact_rank tableau_xx tableau_zz = ret tt.
Proof.
  split; [reflexivity|]. split; [reflexivity|].
  exact (assert_tableaus_accepts_anticommuting exact_rank eq_refl eq_refl).
Defined.

(** ** The reference tableau *)

Section TargetFacts.

Context {TableauSimulator NumpyTableau : Type}.
Variable new_simulator : TableauSimulator.
Variable stim_call :
  stim_method -> list Z -> TableauSimulator -> TableauSimulator.
Variable get_tableau_from_stim_simulator : TableauSimulator -> NumpyTableau.

Lemma target_step_handled (sim : TableauSimulator) (op : GateOperation) :
  target_step stim_call sim op =
    if handled op then
      ret (apply_corresponding stim_call sim [op])
    else
      raise (ValueError ("Gate " ++ name (gate op) ++ " not supported.")%string).
Proof.
  destruct op as [[nm ps] qs].
  unfold target_step, handled, apply_corresponding, method_of,
    corresponding_method.
  cbn [name gate qubit_indices find fold_left fst].
  repeat (match goal with
          | |- context [String.eqb nm ?s] =>
              destruct (String.eqb_spec nm s) as [-> | ?]; [reflexivity|]
          end).
  reflexivity.
Qed.

Lemma apply_corresponding_cons (sim : TableauSimulator)
    (op : GateOperation) (ops : list GateOperation) :
  apply_corresponding stim_call sim (op :: ops) =
    apply_corresponding stim_call
      (apply_corresponding stim_call sim [op]) ops.
Proof. reflexivity. Qed.

(** C7: [get_target_tableau] goes through the operations in order; it
    raises the [ValueError] naming the first operation whose gate is
    neither [I] nor one of the ten gates with a corresponding simulator
    method, and otherwise returns the tableau of the simulator after the
    corresponding method of every operation, with [I] skipped. *)
Theorem get_target_tableau_outcome (circuit : Circuit) :
  get_target_tableau new_simulator stim_call
    get_tableau_from_stim_simulator circuit =
    match find (fun op => negb (handled op)) (operations circuit) with
    | Some op =>
        raise (ValueError
                 ("Gate " ++ name (gate op) ++ " not supported.")%string)
    | None =>
        ret (get_tableau_from_stim_simulator
               (apply_corresponding stim_call new_simulator
                  (operations circuit)))
    end.
Proof.
  unfold get_target_tableau.
  generalize new_simulator as sim.
  induction (operations circuit) as [|op ops IH]; intros sim.
  - reflexivity.
  - cbn [foldM find]. rewrite target_step_handled.
    destruct (handled op); cbn [negb bind ret raise].
    + rewrite apply_corresponding_cons. apply IH.
    + reflexivity.
Qed.

End TargetFacts.

(** ** Single factorized QPE costing *)

Section OpenFermionFacts.

Import OpenFermion.

Context {Matrix Eri Factors Real Duration : Type}.
Context {CostEstimate AlgorithmParameters : Type}.
Variable shape0 : Matrix -> Z.
Variable transpose_2301 : Eri -> Eri.
Variable allclose : Eri -> Eri -> bool.
Variable sf_factorize : Eri -> Z -> result (Eri * Factors).
Variable compute_lambda : Matrix -> Eri -> Factors -> result Real.
Variable sf_compute_cost :
  Z -> Real -> Real -> Z -> Real -> Z -> result (Z * Z * Z).
Variable cost_estimator :
  Z -> Z -> Duration -> result (CostEstimate * AlgorithmParameters).
Variable physical_qubit_count : CostEstimate -> Z.
Variable duration_seconds : CostEstimate -> Z.
Variable algorithm_failure_probability : CostEstimate -> Real.
Variable max_allocated_logical_qubits : AlgorithmParameters -> Z.
Variable logical_data_qubit_distance : AlgorithmParameters -> Z.
Variable magic_state_factory_details : AlgorithmParameters -> string.

Abbreviation toffoli_and_qubit_cost :=
  (get_single_factorized_qpe_toffoli_and_qubit_cost (Duration := Duration)
     shape0 sf_factorize compute_lambda sf_compute_cost).

Abbreviation resource_estimate :=
  (get_single_factorized_qpe_resource_estimate
     shape0 transpose_2301 allclose sf_factorize compute_lambda
     sf_compute_cost cost_estimator physical_qubit_count duration_seconds
     algorithm_failure_probability max_allocated_logical_qubits
     logical_data_qubit_distance magic_state_factory_details).

(** The costing starts with the factorization, whatever happens next. *)
Lemma toffoli_and_qubit_cost_starts_with_factorize
    (h1 : Matrix) (eri : Eri) (rank : Z) (dE chi : Real)
    (log : list (event Matrix Eri Factors Real Duration)) :
  exists outcome rest,
    toffoli_and_qubit_cost h1 eri rank dE chi log
    = (outcome, log ++ Factorize eri rank :: rest).
Proof.
  unfold get_single_factorized_qpe_toffoli_and_qubit_cost, tbind, call, tret.
  destruct (sf_factorize eri rank) as [e | [eri_rr LR]];
    [by eexists _, [] |].
  destruct (compute_lambda h1 eri_rr LR) as [e | lam];
    [eexists _, [_]; by rewrite <- !app_assoc |].
  destruct (sf_compute_cost _ lam dE rank chi 20000) as [e | first];
    [eexists _, [_; _]; by rewrite <- !app_assoc |].
  destruct (sf_compute_cost _ lam dE rank chi first.1.1)
    as [e | [[s2 t2] q2]];
    eexists _, [_; _; _]; by rewrite <- !app_assoc.
Qed.

(** C2: when the four calls into the packages return, the function has
    made exactly these calls, in this order: the factorization of [eri]
    at the given rank, lambda from the factorization, the costing with
    20000 steps, and the costing with the step count [stps1] that came
    out of the first costing; it returns the Toffoli count and the
    logical-qubit count of the second costing, in that order. *)
Theorem two_pass_costing
    (h1 : Matrix) (eri : Eri) (rank : Z) (dE chi : Real)
    (eri_rr : Eri) (LR : Factors) (lam : Real)
    (stps1 toffoli1 qubits1 stps2 toffoli2 qubits2 : Z)
    (log : list (event Matrix Eri Factors Real Duration)) :
  sf_factorize eri rank = ret (eri_rr, LR) ->
  compute_lambda h1 eri_rr LR = ret lam ->
  sf_compute_cost (shape0 h1 * 2) lam dE rank chi 20000
    = ret (stps1, toffoli1, qubits1) ->
  sf_compute_cost (shape0 h1 * 2) lam dE rank chi stps1
    = ret (stps2, toffoli2, qubits2) ->
  toffoli_and_qubit_cost h1 eri rank dE chi log
  = (ret (toffoli2, qubits2),
     log ++ [ Factorize eri rank;
              ComputeLambda h1 eri_rr LR;
              ComputeCost (shape0 h1 * 2) lam dE rank chi 20000;
              ComputeCost (shape0 h1 * 2) lam dE rank chi stps1 ]).
Proof.
  intros Hf Hl Hc1 Hc2.
  unfold get_single_factorized_qpe_toffoli_and_qubit_cost, tbind, call, tret.
  rewrite Hf. cbn [ret]. rewrite Hl. cbn [ret]. rewrite Hc1. cbn [ret fst].
  rewrite Hc2. cbn [ret]. by rewrite <- !app_assoc.
Qed.

(** C1: the function raises its symmetry error, with nothing done before
    it, exactly when the transposed integrals are not close to the
    integrals; the error then leaves the function as it is, and no call
    into the costing packages is made.  When they are close, the
    factorization is the first thing that happens. *)
Theorem symmetry_error_iff
    (h1 : Matrix) (eri : Eri) (rank : Z) (cycle_time : Duration)
    (dE chi : Real) :
  (allclose (transpose_2301 eri) eri = false
   <-> resource_estimate h1 eri rank cycle_time dE chi []
       = (raise (ValueError symmetry_message), []))
  /\ (forall log,
        allclose (transpose_2301 eri) eri = false ->
        resource_estimate h1 eri rank cycle_time dE chi log
        = (raise (ValueError symmetry_message), log))
  /\ (allclose (transpose_2301 eri) eri = true ->
      exists outcome rest,
        resource_estimate h1 eri rank cycle_time dE chi []
        = (outcome, Factorize eri rank :: rest)).
Proof.
  assert (Hno : forall log,
             allclose (transpose_2301 eri) eri = false ->
             resource_estimate h1 eri rank cycle_time dE chi log
             = (raise (ValueError symmetry_message), log)).
  { intros log H. unfold get_single_factorized_qpe_resource_estimate.
    rewrite H. reflexivity. }
  assert (Hyes : allclose (transpose_2301 eri) eri = true ->
             exists outcome rest,
               resource_estimate h1 eri rank cycle_time dE chi []
               = (outcome, Factorize eri rank :: rest)).
  { intros H. unfold get_single_factorized_qpe_resource_estimate.
    rewrite H. cbn [negb]. unfold tbind at 1.
    destruct (toffoli_and_qubit_cost_starts_with_factorize
                h1 eri rank dE chi []) as (outcome & rest & ->).
    destruct outcome as [e | [toffoli qubits]]; [by eexists _, _|].
    unfold tbind, print, call, tret. cbn [app].
    destruct (cost_estimator qubits toffoli cycle_time) as [e | [c p]];
      by eexists _, _. }
  split; [split | split]; try assumption.
  - apply Hno.
  - intros Hrun. destruct (allclose (transpose_2301 eri) eri); [|reflexivity].
    destruct (Hyes eq_refl) as (outcome & rest & Heq).
    rewrite Heq in Hrun. discriminate.
Qed.

End OpenFermionFacts.

Lemma two_pass_costing_witness :
  OpenFermion.get_single_factorized_qpe_toffoli_and_qubit_cost
    (Duration := unit) (fun h1 => h1) toy_factorize toy_lambda
    toy_compute_cost 2 5 3 1 10 []
  = (ret (40004, 7),
     [ OpenFermion.Factorize 5 3;
       OpenFermion.ComputeLambda 2 5 3;
       OpenFermion.ComputeCost 4 10 1 3 10 20000;
       OpenFermion.ComputeCost 4 10 1 3 10 10001 ]).
Proof.
  exact (two_pass_costing (Duration := unit) (fun h1 => h1) toy_factorize
           toy_lambda toy_compute_cost 2 5 3 1 10 5 3 10
           10001 80000 7 5001 40004 7 [] eq_refl eq_refl eq_refl eq_refl).
Defined.

Lemma symmetry_error_iff_witness :
  OpenFermion.get_single_factorized_qpe_resource_estimate
    (fun h1 => h1) toy_transpose toy_allclose
    toy_factorize toy_lambda toy_compute_cost toy_cost_estimator
    (fun c => c) (fun c => c) (fun c => c) (fun p => p) (fun p => p)
    (fun _ => "toy") 2 5 3 tt 1 10 []
  = (raise (ValueError OpenFermion.symmetry_message), []).
Proof.
  exact (proj1 (proj1 (symmetry_error_iff (fun h1 => h1) toy_transpose
                         toy_allclose toy_factorize toy_lambda
                         toy_compute_cost toy_cost_estimator
                         (fun c => c) (fun c => c) (fun c => c)
                         (fun p => p) (fun p => p) (fun _ => "toy")
                         2 5 3 tt 1 10))
               eq_refl).
Defined.

(** ** The QASM example *)

Section QasmExampleFacts.

Import QasmExample.

Context {QuantumCircuit OrquestraCircuit Program : Type}.
Context {ErrorBudget ArchitectureModel ResourceInfo : Type}.
Variable from_qasm_file : string -> result QuantumCircuit.
Variable import_from_qiskit : QuantumCircuit -> result OrquestraCircuit.
Variable get_program_from_circuit : OrquestraCircuit -> result Program.
Variable even_split_1e_3 : ErrorBudget.
Variable BASIC_SC_ARCHITECTURE_MODEL : ArchitectureModel.
Variable transpile_to_native_gates : Program -> result Program.
Variable synthesize_clifford_t : ErrorBudget -> Program -> result Program.
Variable create_big_graph_from_subcircuits : Program -> result Program.
Variable GraphResourceEstimator :
  ArchitectureModel -> AlgorithmImplementation Program ErrorBudget
  -> result ResourceInfo.

(** The pipeline applies a list of transformers from left to right. *)
Lemma run_pipeline_cons
    (alg : AlgorithmImplementation Program ErrorBudget)
    (estimator : AlgorithmImplementation Program ErrorBudget
                 -> result ResourceInfo)
    (t : Program -> result Program) (ts : list (Program -> result Program)) :
  run_custom_resource_estimation_pipeline alg estimator (t :: ts)
  = (transformed <- t (program alg) ;;;
     run_custom_resource_estimation_pipeline
       (mkAlgorithm transformed (error_budget alg) (n_calls alg))
       estimator ts).
Proof.
  unfold run_custom_resource_estimation_pipeline. cbn [foldM].
  destruct (t (program alg)); reflexivity.
Qed.

(** C5: the example transpiles the program of the input circuit to native
    gates, then synthesizes Clifford+T gates, then builds the big graph from
    subcircuits, and the graph resource estimator works on the outcome of
    the third stage; a stage that raises ends the run before the later
    stages and before the estimator. *)
Theorem main_stage_order (file_name : string) :
  main from_qasm_file import_from_qiskit get_program_from_circuit
    even_split_1e_3 BASIC_SC_ARCHITECTURE_MODEL transpile_to_native_gates
    synthesize_clifford_t create_big_graph_from_subcircuits
    GraphResourceEstimator file_name
  = (qiskit_circuit <- from_qasm_file file_name ;;;
     orquestra_circuit <- import_from_qiskit qiskit_circuit ;;;
     quantum_program <- get_program_from_circuit orquestra_circuit ;;;
     native <- transpile_to_native_gates quantum_program ;;;
     clifford_t <- synthesize_clifford_t even_split_1e_3 native ;;;
     big_graph <- create_big_graph_from_subcircuits clifford_t ;;;
     GraphResourceEstimator BASIC_SC_ARCHITECTURE_MODEL
       (mkAlgorithm big_graph even_split_1e_3 1)).
Proof.
  unfold main.
  destruct (from_qasm_file file_name) as [e | qc]; [reflexivity|].
  cbn [bind]. destruct (import_from_qiskit qc) as [e | oc]; [reflexivity|].
  cbn [bind]. destruct (get_program_from_circuit oc) as [e | p];
    [reflexivity|].
  cbn [bind]. rewrite run_pipeline_cons. cbn [program error_budget n_calls].
  destruct (transpile_to_native_gates p) as [e | p1]; [reflexivity|].
  cbn [bind]. rewrite run_pipeline_cons. cbn [program error_budget n_calls].
  destruct (synthesize_clifford_t even_split_1e_3 p1) as [e | p2];
    [reflexivity|].
  cbn [bind]. rewrite run_pipeline_cons. cbn [program error_budget n_calls].
  destruct (create_big_graph_from_subcircuits p2) as [e | p3];
    reflexivity.
Qed.

End QasmExampleFacts.

(** ** The ICM conversion *)

Lemma agree_insert (n : Z) (index : gmap Z Z) (compiled : Z -> Z) (q a : Z) :
  agree n index compiled -> agree n (<[q := a]> index) (remap compiled q a).
Proof.
  intros H q' Hq'. unfold remap.
  destruct (Z.eqb_spec q' q) as [-> | Hne].
  - apply lookup_insert_eq.
  - rewrite lookup_insert_ne by congruence. by apply H.
Qed.

Lemma elem_of_range (n q : Z) : q ∈ range n <-> 0 <= q < n.
Proof.
  unfold range. change (map Z.of_nat ?l) with (Z.of_nat <$> l).
  rewrite list_elem_of_fmap. split.
  - intros (k & -> & Hk). apply elem_of_seq in Hk. lia.
  - intros Hq. exists (Z.to_nat q). split; [lia|]. apply elem_of_seq. lia.
Qed.

Lemma lookup_diagonal (l : list Z) (q : Z) :
  q ∈ l ->
  (list_to_map (map (fun i => (i, i)) l) : gmap Z Z) !! q = Some q.
Proof.
  induction l as [|a l IH]; intros Hq.
  - by apply elem_of_nil in Hq.
  - cbn [map]. rewrite list_to_map_cons.
    destruct (decide (a = q)) as [-> | Hne].
    + apply lookup_insert_eq.
    + rewrite lookup_insert_ne by exact Hne. apply IH.
      apply elem_of_cons in Hq as [-> | Hq]; [done | exact Hq].
Qed.

Lemma agree_initial (circuit : Circuit) :
  agree (n_qubits circuit) (compiled_qubit_index (initial_state circuit))
        (fun q => q).
Proof.
  intros q Hq. cbn [initial_state compiled_qubit_index].
  apply lookup_diagonal. by apply elem_of_range.
Qed.

Lemma highest_index_seq (a k : nat) :
  highest_index (map Z.of_nat (seq a k))
  = if Nat.eqb k 0 then -1 else Z.of_nat a + Z.of_nat k - 1.
Proof.
  revert a. induction k as [|k IH]; intros a; [reflexivity|].
  cbn [seq map highest_index fold_right]. fold (highest_index (map Z.of_nat (seq (S a) k))).
  rewrite IH. destruct k; cbn [Nat.eqb]; lia.
Qed.

Lemma highest_index_range (n : Z) : 0 <= n -> highest_index (range n) = n - 1.
Proof.
  intros Hn. unfold range. rewrite highest_index_seq.
  destruct (Nat.eqb_spec (Z.to_nat n) 0); lia.
Qed.

Lemma highest_index_fresh (used : list Z) :
  highest_index (highest_index used + 1 :: used) = highest_index used + 1.
Proof. cbn [highest_index fold_right]. fold (highest_index used). lia. Qed.

(** Under the agreement, both ways of reading the dictionary give the
    description's current indices. *)
Lemma compiled_qubits_agree (n : Z) (index : gmap Z Z) (compiled : Z -> Z)
    (qubits : list Z) :
  agree n index compiled ->
  Forall (fun q => 0 <= q < n) qubits ->
  map (fun qubit => default qubit (index !! qubit)) qubits = map compiled qubits.
Proof.
  intros Hag Hqs. induction Hqs as [|q qs Hq _ IH]; [reflexivity|].
  cbn [map]. rewrite IH, (Hag q Hq). reflexivity.
Qed.

Lemma lookup_all_agree (n : Z) (index : gmap Z Z) (compiled : Z -> Z)
    (qubits : list Z) :
  agree n index compiled ->
  Forall (fun q => 0 <= q < n) qubits ->
  lookup_all index qubits = ret (map compiled qubits).
Proof.
  intros Hag Hqs. induction Hqs as [|q qs Hq _ IH]; [reflexivity|].
  cbn [lookup_all map]. rewrite (Hag q Hq), IH. reflexivity.
Qed.

(** The loop of the first branch hands out the ancillas of [allocate], one
    [CNOT] each, and leaves the dictionary and the counter as the
    description has them. *)
Lemma fold_decompose_qubit (n : Z) (qubits : list Z) :
  forall (current : list Z) (st : icm_state) (compiled : Z -> Z)
         (used : list Z),
    length current = length qubits ->
    agree n (compiled_qubit_index st) compiled ->
    icm_circuit_n_qubits st = highest_index used ->
    forall compiled' used' ancillas,
      allocate compiled used qubits = (compiled', used', ancillas) ->
      let st' := fold_left decompose_qubit (zip qubits current) st in
      agree n (compiled_qubit_index st') compiled'
      /\ icm_circuit_n_qubits st' = highest_index used'
      /\ icm_circuit st' = icm_circuit st ++ zip_with CNOT current ancillas.
Proof.
  induction qubits as [|q qs IH];
    intros [|c cs] st compiled used Hlen Hag Hn compiled' used' ancillas Hal;
    try discriminate.
  - injection Hal as <- <- <-. cbn. rewrite app_nil_r. done.
  - cbn [allocate] in Hal.
    destruct (allocate (remap compiled q (highest_index used + 1))
                (highest_index used + 1 :: used) qs)
      as [[compiled1 used1] ancillas1] eqn:Hrec.
    injection Hal as <- <- <-.
    cbn [zip zip_with fold_left].
    specialize (IH cs (decompose_qubit st (q, c))
                  (remap compiled q (highest_index used + 1))
                  (highest_index used + 1 :: used)).
    cbn [decompose_qubit compiled_qubit_index icm_circuit
           icm_circuit_n_qubits] in IH.
    rewrite Hn in IH.
    destruct (IH ltac:(by injection Hlen) ltac:(by apply agree_insert)
                ltac:(by rewrite highest_index_fresh)
                _ _ _ Hrec) as (Hag' & Hn' & Hout).
    cbn [decompose_qubit]. rewrite Hn.
    repeat split; try assumption.
    rewrite Hout. rewrite <- app_assoc. reflexivity.
Qed.

(** The loop of the [RESET] branch does the same without emitting. *)
Lemma fold_reset_qubit (n : Z) (qubits : list Z) :
  forall (current : list Z) (st : icm_state) (compiled : Z -> Z)
         (used : list Z),
    length current = length qubits ->
    agree n (compiled_qubit_index st) compiled ->
    icm_circuit_n_qubits st = highest_index used ->
    forall compiled' used' ancillas,
      allocate compiled used qubits = (compiled', used', ancillas) ->
      let st' := fold_left reset_qubit (zip qubits current) st in
      agree n (compiled_qubit_index st') compiled'
      /\ icm_circuit_n_qubits st' = highest_index used'
      /\ icm_circuit st' = icm_circuit st.
Proof.
  induction qubits as [|q qs IH];
    intros [|c cs] st compiled used Hlen Hag Hn compiled' used' ancillas Hal;
    try discriminate.
  - injection Hal as <- <- <-. done.
  - cbn [allocate] in Hal.
    destruct (allocate (remap compiled q (highest_index used + 1))
                (highest_index used + 1 :: used) qs)
      as [[compiled1 used1] ancillas1] eqn:Hrec.
    injection Hal as <- <- <-.
    cbn [zip zip_with fold_left].
    specialize (IH cs (reset_qubit st (q, c))
                  (remap compiled q (highest_index used + 1))
                  (highest_index used + 1 :: used)).
    cbn [reset_qubit compiled_qubit_index icm_circuit
           icm_circuit_n_qubits] in IH.
    rewrite Hn in IH.
    destruct (IH ltac:(by injection Hlen) ltac:(by apply agree_insert)
                ltac:(by rewrite highest_index_fresh)
                _ _ _ Hrec) as (Hag' & Hn' & Hout).
    cbn [reset_qubit]. rewrite Hn.
    repeat split; assumption.
Qed.

(** The loop over the operations never raises on qubits of the circuit and
    appends to the output what the description emits. *)
Lemma foldM_icm_step (gates_to_decompose : list string) (n : Z)
    (ops : list GateOperation) :
  forall (st : icm_state) (compiled : Z -> Z) (used : list Z),
    Forall (within n) ops ->
    agree n (compiled_qubit_index st) compiled ->
    icm_circuit_n_qubits st = highest_index used ->
    exists st',
      foldM (icm_step gates_to_decompose) st ops = ret st'
      /\ icm_circuit st'
         = icm_circuit st
             ++ icm_operations gates_to_decompose compiled used ops.
Proof.
  induction ops as [|op ops IH]; intros st compiled used Hops Hag Hn.
  - exists st. split; [reflexivity|]. cbn. by rewrite app_nil_r.
  - apply Forall_cons in Hops as [Hop Hops].
    cbn [foldM icm_operations]. unfold icm_step.
    rewrite (compiled_qubits_agree n _ compiled _ Hag Hop).
    destruct (allocate compiled used (qubit_indices op))
      as [[compiled' used'] ancillas] eqn:Hal.
    case_bool_decide as Hdec; [|case_bool_decide as Hreset].
    + destruct (fold_decompose_qubit n (qubit_indices op)
                  (map compiled (qubit_indices op)) st compiled used
                  ltac:(by rewrite length_map) Hag Hn _ _ _ Hal)
        as (Hag' & Hn' & Hout).
      cbn [bind ret].
      destruct (IH _ compiled' used' Hops Hag' Hn') as (st' & Hrun & Hst').
      exists st'. split; [exact Hrun|].
      rewrite Hst', Hout, <- app_assoc. reflexivity.
    + destruct (fold_reset_qubit n (qubit_indices op)
                  (map compiled (qubit_indices op)) st compiled used
                  ltac:(by rewrite length_map) Hag Hn _ _ _ Hal)
        as (Hag' & Hn' & Hout).
      cbn [bind ret].
      destruct (IH _ compiled' used' Hops Hag' Hn') as (st' & Hrun & Hst').
      exists st'. split; [exact Hrun|].
      rewrite Hst', Hout. reflexivity.
    + rewrite (lookup_all_agree n _ compiled _ Hag Hop). cbn [bind ret].
      destruct (IH (mkIcm (compiled_qubit_index st)
                      (icm_circuit st
                         ++ [gate_call (gate op)
                               (map compiled (qubit_indices op))])
                      (icm_circuit_n_qubits st))
                  compiled used Hops Hag Hn) as (st' & Hrun & Hst').
      exists st'. split; [exact Hrun|].
      rewrite Hst'. cbn [icm_circuit]. rewrite <- app_assoc. reflexivity.
Qed.

(** On a circuit whose qubit indices are below its size, [get_icm] returns
    the circuit of the operations that the description emits, starting from
    every qubit compiled to itself and from the declared qubits of the
    circuit as the indices used so far. *)
Lemma get_icm_description (circuit : Circuit)
    (gates_to_decompose : list string) :
  well_sized circuit ->
  get_icm circuit gates_to_decompose
  = ret (Circuit_of
           (icm_operations gates_to_decompose (fun q => q)
              (range (n_qubits circuit)) (operations circuit))).
Proof.
  intros [Hn Hops]. unfold get_icm.
  destruct (foldM_icm_step gates_to_decompose (n_qubits circuit)
              (operations circuit) (initial_state circuit) (fun q => q)
              (range (n_qubits circuit)) Hops (agree_initial circuit))
    as (st' & Hrun & Hst').
  { cbn [initial_state icm_circuit_n_qubits].
    by rewrite highest_index_range. }
  rewrite Hrun. cbn [bind ret]. rewrite Hst'. reflexivity.
Qed.

(** The description reads the indices in use only through the highest of
    them. *)
Lemma allocate_highest (qubits : list Z) :
  forall compiled used_1 used_2 compiled' used_1' ancillas,
    highest_index used_1 = highest_index used_2 ->
    allocate compiled used_1 qubits = (compiled', used_1', ancillas) ->
    exists used_2',
      allocate compiled used_2 qubits = (compiled', used_2', ancillas)
      /\ highest_index used_1' = highest_index used_2'.
Proof.
  induction qubits as [|q qs IH];
    intros compiled used_1 used_2 compiled' used_1' ancillas Hhigh.
  - intros [= <- <- <-]. by exists used_2.
  - cbn [allocate]. rewrite <- Hhigh.
    destruct (allocate (remap compiled q (highest_index used_1 + 1))
                (highest_index used_1 + 1 :: used_1) qs)
      as [[c1 u1] a1] eqn:Hrec.
    intros [= <- <- <-].
    assert (Hnext : highest_index (highest_index used_1 + 1 :: used_1)
                    = highest_index (highest_index used_1 + 1 :: used_2)).
    { cbn [highest_index fold_right]. fold (highest_index used_1).
      fold (highest_index used_2). lia. }
    destruct (IH _ _ _ _ _ _ Hnext Hrec) as (u2 & Hrec2 & Hhigh2).
    rewrite Hrec2. by exists u2.
Qed.

Lemma icm_operations_highest (gates_to_decompose : list string)
    (ops : list GateOperation) :
  forall compiled used_1 used_2,
    highest_index used_1 = highest_index used_2 ->
    icm_operations gates_to_decompose compiled used_1 ops
    = icm_operations gates_to_decompose compiled used_2 ops.
Proof.
  induction ops as [|op ops IH]; intros compiled used_1 used_2 Hhigh;
    [reflexivity|].
  cbn [icm_operations].
  destruct (allocate compiled used_1 (qubit_indices op))
    as [[c1 u1] a1] eqn:Hal.
  destruct (allocate_highest _ _ _ used_2 _ _ _ Hhigh Hal)
    as (u2 & -> & Hhigh').
  rewrite (IH c1 u1 u2 Hhigh'), (IH compiled used_1 used_2 Hhigh).
  reflexivity.
Qed.

Lemma highest_index_app (used_1 used_2 : list Z) :
  highest_index (used_1 ++ used_2)
  = Z.max (highest_index used_1) (highest_index used_2).
Proof.
  assert (Hlow : forall l : list Z, -1 <= highest_index l).
  { induction l as [|b k IHk]; [cbn; lia|].
    change (highest_index (b :: k)) with (Z.max b (highest_index k)). lia. }
  induction used_1 as [|a l IH].
  - change (highest_index []) with (-1). cbn [app].
    specialize (Hlow used_2). lia.
  - change (highest_index ((a :: l) ++ used_2))
      with (Z.max a (highest_index (l ++ used_2))).
    change (highest_index (a :: l)) with (Z.max a (highest_index l)).
    rewrite IH. lia.
Qed.

Lemma highest_index_in_use (circuit : Circuit) :
  well_sized circuit ->
  highest_index (indices_in_use circuit)
  = highest_index (range (n_qubits circuit)).
Proof.
  intros [Hn Hops]. unfold indices_in_use.
  rewrite highest_index_app, highest_index_range by exact Hn.
  assert (H : highest_index (concat (map qubit_indices (operations circuit)))
              <= n_qubits circuit - 1).
  { induction Hops as [|op ops Hop _ IH]; cbn [map concat];
      [cbn; lia|].
    rewrite highest_index_app.
    assert (Hq : highest_index (qubit_indices op) <= n_qubits circuit - 1).
    { induction Hop as [|q qs Hq _ IHq]; [cbn; lia|].
      change (highest_index (q :: qs)) with (Z.max q (highest_index qs)).
      lia. }
    lia. }
  lia.
Qed.

(** C4: on a circuit whose qubit indices are below its size, [get_icm]
    does what its description says: for a decomposed operation it emits one
    [CNOT] per qubit, from the current compiled index of the qubit to a
    fresh ancilla one past the highest index used so far, for a [RESET] it
    emits nothing, in both cases it remaps the qubits to their ancillas for
    what follows, and any other operation is emitted on the current compiled
    indices of its qubits. *)
Theorem get_icm_as_described (circuit : Circuit)
    (gates_to_decompose : list string) :
  well_sized circuit ->
  as_described circuit gates_to_decompose.
Proof.
  intros Hsized. unfold as_described.
  rewrite (get_icm_description circuit gates_to_decompose Hsized).
  eexists. split; [reflexivity|]. cbn [Circuit_of operations].
  apply icm_operations_highest. symmetry.
  by apply highest_index_in_use.
Qed.

Lemma get_icm_as_described_witness :
  as_described sample_circuit default_gates_to_decompose.
Proof.
  apply get_icm_as_described.
  split; [cbn; lia|]. unfold within. cbn. repeat constructor; lia.
Defined.

(** Beyond the size of the circuit the description fails: an operation on
    qubit 5 of a circuit of two qubits is not emitted at all, the conversion
    ends in a [KeyError]; and for a [T] on qubit 5 of a circuit of five
    qubits the ancilla is 5 itself, an index in use. *)
Lemma get_icm_as_described_counterexample :
  ~ as_described (mkCircuit [mkOp (mkGate "H" []) [5]] 2)
      default_gates_to_decompose
  /\ get_icm (mkCircuit [mkOp (mkGate "H" []) [5]] 2)
       default_gates_to_decompose
     = raise (KeyError 5)
  /\ ~ as_described (mkCircuit [mkOp (mkGate "T" []) [5]] 5)
        default_gates_to_decompose
  /\ get_icm (mkCircuit [mkOp (mkGate "T" []) [5]] 5)
       default_gates_to_decompose
     = ret (Circuit_of [CNOT 5 5]).
Proof.
  split; [|split; [reflexivity|split; [|reflexivity]]].
  - intros (icm & Hrun & _). vm_compute in Hrun. discriminate.
  - intros (icm & Hrun & Hops). vm_compute in Hrun. injection Hrun as <-.
    vm_compute in Hops. discriminate.
Qed.

(** The ancillas of one operation are the consecutive indices after the
    highest index used so far, so each is larger than every index handed
    out before it. *)
Lemma allocate_ancillas (qubits : list Z) :
  forall (compiled : Z -> Z) (used : list Z) compiled' used' ancillas,
    allocate compiled used qubits = (compiled', used', ancillas) ->
    ancillas
    = map (fun i => highest_index used + 1 + Z.of_nat i)
          (seq 0 (length qubits))
    /\ highest_index used' = highest_index used + Z.of_nat (length qubits).
Proof.
  induction qubits as [|q qs IH]; intros compiled used compiled' used' ancillas.
  - intros [= <- <- <-]. split; [reflexivity | cbn; lia].
  - cbn [allocate].
    destruct (allocate (remap compiled q (highest_index used + 1))
                (highest_index used + 1 :: used) qs)
      as [[compiled1 used1] ancillas1] eqn:Hrec.
    intros [= <- <- <-].
    destruct (IH _ _ _ _ _ Hrec) as [Hanc Hhigh].
    rewrite highest_index_fresh in Hanc, Hhigh.
    split.
    + cbn [length seq map]. f_equal; [lia|].
      rewrite Hanc, <- seq_shift, map_map.
      apply map_ext. intros i. lia.
    + rewrite Hhigh. cbn [length]. lia.
Qed.

(** Without a gate to decompose and without [RESET], the description emits
    the operations it is given when every qubit is compiled to itself. *)
Lemma icm_operations_plain (used : list Z) (ops : list GateOperation) :
  Forall (fun op => name (gate op) ∉ ["T"; "T_Dagger"; "RZ"; "RESET"]) ops ->
  icm_operations default_gates_to_decompose (fun q => q) used ops = ops.
Proof.
  induction 1 as [|op ops Hop _ IH]; [reflexivity|].
  cbn [icm_operations].
  destruct (allocate (fun q => q) used (qubit_indices op))
    as [[compiled' used'] ancillas].
  unfold default_gates_to_decompose in *.
  rewrite !bool_decide_eq_false_2.
  - rewrite IH, map_id. by destruct op.
  - intros Heq. apply Hop. rewrite Heq.
    rewrite !elem_of_cons. tauto.
  - intros Hin. apply Hop. rewrite !elem_of_cons in Hin |- *.
    destruct Hin as [H | [H | [H | H]]]; [tauto | tauto | tauto |].
    by apply elem_of_nil in H.
Qed.

(** C8: on a circuit whose qubit indices are below its size and that has
    no [T], [T_Dagger], [RZ] or [RESET] operation, [get_icm] with the
    default gates returns a circuit with the operations of the input, in
    the same order and on the same qubits. *)
Theorem get_icm_identity (circuit : Circuit) :
  well_sized circuit ->
  Forall (fun op => name (gate op) ∉ ["T"; "T_Dagger"; "RZ"; "RESET"])
         (operations circuit) ->
  exists icm,
    get_icm circuit default_gates_to_decompose = ret icm
    /\ operations icm = operations circuit.
Proof.
  intros [Hn Hops] Hplain. unfold get_icm.
  destruct (foldM_icm_step default_gates_to_decompose (n_qubits circuit)
              (operations circuit) (initial_state circuit) (fun q => q)
              (range (n_qubits circuit)) Hops (agree_initial circuit))
    as (st' & Hrun & Hst').
  { cbn [initial_state icm_circuit_n_qubits].
    by rewrite highest_index_range. }
  rewrite Hrun. cbn [bind ret]. eexists. split; [reflexivity|].
  cbn [Circuit_of operations]. rewrite Hst'.
  rewrite icm_operations_plain by exact Hplain. reflexivity.
Qed.

Lemma get_icm_identity_witness :
  exists icm,
    get_icm clifford_circuit default_gates_to_decompose = ret icm
    /\ operations icm = operations clifford_circuit.
Proof.
  apply get_icm_identity.
  - split; [cbn; lia|]. unfold within. cbn. repeat constructor; lia.
  - cbn. repeat constructor; intros Hin;
      repeat (apply elem_of_cons in Hin as [Hin | Hin]; [discriminate|]);
      by apply elem_of_nil in Hin.
Defined.

(** Beyond the size of the circuit the conversion is not the identity: a
    circuit of two qubits with a single [H] on qubit 5 has nothing to
    decompose, and [get_icm] returns no circuit for it. *)
Lemma get_icm_identity_counterexample :
  Forall (fun op => name (gate op) ∉ ["T"; "T_Dagger"; "RZ"; "RESET"])
         (operations (mkCircuit [mkOp (mkGate "H" []) [5]] 2))
  /\ get_icm (mkCircuit [mkOp (mkGate "H" []) [5]] 2)
       default_gates_to_decompose
     = raise (KeyError 5)
  /\ ~ (exists icm,
         get_icm (mkCircuit [mkOp (mkGate "H" []) [5]] 2)
           default_gates_to_decompose = ret icm
         /\ operations icm
            = operations (mkCircuit [mkOp (mkGate "H" []) [5]] 2)).
Proof.
  split; [|split; [reflexivity|]].
  - cbn. repeat constructor. intros Hin.
    repeat (apply elem_of_cons in Hin as [Hin | Hin]; [discriminate|]).
    by apply elem_of_nil in Hin.
  - intros (icm & Hrun & _). vm_compute in Hrun. discriminate.
Qed.

(** ** Runs on the concrete inputs *)

(** The reference tableau of a Clifford circuit: one call per operation. *)
Example get_target_tableau_clifford :
  get_target_tableau [] recorded_call (fun sim => sim) clifford_circuit
  = ret [ (stim_h, [0]); (stim_s, [0]); (stim_cx, [0; 1]); (stim_cz, [1; 2]) ].
Proof. reflexivity. Qed.

(** A circuit with a [T] gate has no reference tableau. *)
Example get_target_tableau_unsupported :
  get_target_tableau [] recorded_call (fun sim => sim) sample_circuit
  = raise (ValueError "Gate T not supported.").
Proof. reflexivity. Qed.

(** A qubit index beyond the size of the circuit is a [KeyError]. *)
Example get_icm_beyond_size :
  get_icm (mkCircuit [mkOp (mkGate "H" []) [5]] 2) default_gates_to_decompose
  = raise (KeyError 5).
Proof. reflexivity. Qed.

(** Two full-rank tableaus of different shapes are told apart. *)
Example assert_tableaus_shapes :
  assert_tableaus_correspond_to_the_same_stabilizer_state exact_rank
    tableau_xx [[true; false]]
  = raise AssertionError.
Proof. reflexivity. Qed.

(** ** More on the boolean helpers *)

Lemma parity_zip_with_xorb (x x' y : list bool) :
  length x = length y ->
  length x' = length y ->
  parity (zip_with andb (zip_with xorb x x') y)
  = xorb (parity (zip_with andb x y)) (parity (zip_with andb x' y)).
Proof.
  revert x x'. induction y as [|c y IH]; intros [|a x] [|a' x'] Hx Hx';
    try discriminate; [reflexivity|].
  cbn [zip_with parity fold_right].
  fold (parity (zip_with andb (zip_with xorb x x') y)).
  fold (parity (zip_with andb x y)). fold (parity (zip_with andb x' y)).
  rewrite IH by (simpl in *; lia).
  destruct a, a', c, (parity (zip_with andb x y)),
    (parity (zip_with andb x' y)); reflexivity.
Qed.

(** X1: on non-empty arrays of compatible lengths (equal, or one of them
    of length one, which is stretched) [_bool_dot] returns a boolean, and
    the same boolean whichever way round its arguments are given. *)
Theorem bool_dot_commutative (x y : list bool) :
  x <> [] -> y <> [] ->
  length x = length y \/ length x = 1%nat \/ length y = 1%nat ->
  exists b, _bool_dot x y = ret b /\ _bool_dot y x = ret b.
Proof.
  intros Hx Hy Hcompatible. unfold _bool_dot, logical_and.
  rewrite (Nat.eqb_sym (length y) (length x)).
  destruct (Nat.eqb_spec (length x) (length y)) as [Heq | Hne].
  - rewrite (zip_with_andb_comm y x).
    destruct x as [|a x], y as [|b y]; try done.
    cbn [zip_with bind ret]. by eexists.
  - destruct (Nat.eqb_spec (length x) 1) as [Hx1 | Hx1];
      destruct (Nat.eqb_spec (length y) 1) as [Hy1 | Hy1]; try lia.
    + rewrite (map_ext (andb (hd false x)) (fun a => a && hd false x))
        by (intros a; apply andb_comm).
      destruct y as [|b y]; [done|]. cbn [map bind ret]. by eexists.
    + rewrite (map_ext (andb (hd false y)) (fun a => a && hd false y))
        by (intros a; apply andb_comm).
      destruct x as [|a x]; [done|]. cbn [map bind ret]. by eexists.
Qed.

Lemma bool_dot_commutative_witness :
  exists b,
    _bool_dot [true] [true; false; true] = ret b
    /\ _bool_dot [true; false; true] [true] = ret b.
Proof.
  apply bool_dot_commutative; [discriminate | discriminate | by right; left].
Defined.

(** X2: [_bool_dot] raises the [ValueError] of broadcasting exactly when
    the lengths of its arguments differ and neither of them is one. *)
Theorem bool_dot_value_error (x y : list bool) :
  (exists msg, _bool_dot x y = raise (ValueError msg))
  <-> length x <> length y /\ length x <> 1%nat /\ length y <> 1%nat.
Proof.
  unfold _bool_dot, logical_and.
  destruct (Nat.eqb_spec (length x) (length y)) as [Heq | Hne];
    [|destruct (Nat.eqb_spec (length x) 1) as [Hx | Hx];
      [|destruct (Nat.eqb_spec (length y) 1) as [Hy | Hy]]];
    destruct x as [|a x], y as [|b y];
    cbn [map zip_with bind ret raise unchecked];
    cbn [length] in *;
    (split; intros;
     repeat match goal with
       | H : _ /\ _ |- _ => destruct H
       | H : ex _ |- _ => destruct H
       end;
     try discriminate; try lia; try congruence; eauto).
Qed.

Lemma bool_dot_value_error_witness :
  exists msg,
    _bool_dot [true; false] [true; true; false] = raise (ValueError msg).
Proof.
  apply (proj2 (bool_dot_value_error [true; false] [true; true; false])).
  cbn. lia.
Defined.

(** X3: [_bool_dot] is additive over the two-element field: on vectors of
    one common length, at least one, the product with an elementwise
    exclusive or is the exclusive or of the products. *)
Theorem bool_dot_additive (x x' y : list bool) :
  length x = length y ->
  length x' = length y ->
  (1 <= length y)%nat ->
  exists b b',
    _bool_dot x y = ret b
    /\ _bool_dot x' y = ret b'
    /\ _bool_dot (zip_with xorb x x') y = ret (xorb b b').
Proof.
  intros Hx Hx' Hy.
  assert (Hz : length (zip_with xorb x x') = length y)
    by (rewrite length_zip_with; lia).
  rewrite !_bool_dot_same_length by assumption.
  rewrite Hx, Hx', Hz.
  destruct (Nat.eqb_spec (length y) 0) as [H0 | _]; [lia|].
  eexists _, _. repeat split. by rewrite parity_zip_with_xorb.
Qed.

Lemma bool_dot_additive_witness :
  _bool_dot (zip_with xorb [true; false; true] [true; true; false])
            [true; true; true]
  = ret (xorb false false).
Proof.
  destruct (bool_dot_additive [true; false; true] [true; true; false]
              [true; true; true] eq_refl eq_refl ltac:(simpl; lia))
    as (b & b' & Hb & Hb' & Hsum).
  injection Hb as <-. injection Hb' as <-. exact Hsum.
Defined.

(** ** More on the commutation test *)

Lemma commutes_value (stab_1 stab_2 : list bool) :
  length stab_1 = length stab_2 ->
  Nat.Even (length stab_1) ->
  (0 < length stab_1)%nat ->
  commutes stab_1 stab_2 = ret (commute_value stab_1 stab_2).
Proof.
  intros Hlen [k Hk] Hpos. unfold commutes, commute_value.
  set (n := (length stab_1 / 2)%nat).
  assert (Hn : n = k)
    by (subst n; rewrite Hk; symmetry; apply Nat.div_unique_exact; lia).
  assert (L1 : length (take n stab_1) = n) by (rewrite length_take; lia).
  assert (L2 : length (take n stab_2) = n) by (rewrite length_take; lia).
  assert (D1 : length (drop n stab_1) = n) by (rewrite length_drop; lia).
  assert (D2 : length (drop n stab_2) = n) by (rewrite length_drop; lia).
  rewrite (_bool_dot_same_length (take n stab_1)) by congruence.
  rewrite (_bool_dot_same_length (drop n stab_1)) by congruence.
  rewrite L1, D1.
  destruct (Nat.eqb_spec n 0) as [H0 | _]; [lia | reflexivity].
Qed.

(** X4: a stabilizer row of even length, at least two, commutes with
    itself. *)
Theorem commutes_reflexive (stab : list bool) :
  Nat.Even (length stab) ->
  (0 < length stab)%nat ->
  commutes stab stab = ret true.
Proof.
  intros Heven Hpos. rewrite commutes_value by done.
  unfold commute_value.
  rewrite (zip_with_andb_comm (drop _ stab)).
  by rewrite xorb_nilpotent.
Qed.

Lemma commutes_reflexive_witness :
  commutes [true; true; false; true] [true; true; false; true] = ret true.
Proof.
  apply commutes_reflexive; [exists 2%nat; reflexivity | simpl; lia].
Defined.

(** X5: the commutation test turns the product of two rows (their
    elementwise exclusive or) into agreement: the product commutes with a
    third row exactly when both rows commute with it or both anticommute. *)
Theorem commutes_product (a b c : list bool) :
  length a = length c ->
  length b = length c ->
  Nat.Even (length c) ->
  (0 < length c)%nat ->
  exists ca cb,
    commutes a c = ret ca
    /\ commutes b c = ret cb
    /\ commutes (zip_with xorb a b) c = ret (Bool.eqb ca cb).
Proof.
  intros Ha Hb Heven Hpos.
  assert (Hab : length (zip_with xorb a b) = length c)
    by (rewrite length_zip_with; lia).
  rewrite !commutes_value by (rewrite ?Ha, ?Hb, ?Hab; done).
  eexists _, _. repeat split. f_equal.
  unfold commute_value. rewrite Hab, Ha, Hb.
  set (n := (length c / 2)%nat).
  rewrite zip_with_take, zip_with_drop.
  assert (Hn : (n + n = length c)%nat).
  { destruct Heven as [k Hk]. subst n. rewrite Hk.
    rewrite (Nat.mul_comm 2 k), Nat.div_mul by lia. lia. }
  rewrite !parity_zip_with_xorb
    by (rewrite ?length_take, ?length_drop; lia).
  destruct (parity (zip_with andb (take n a) (drop n c))),
    (parity (zip_with andb (take n b) (drop n c))),
    (parity (zip_with andb (drop n a) (take n c))),
    (parity (zip_with andb (drop n b) (take n c))); reflexivity.
Qed.

Lemma commutes_product_witness :
  commutes (zip_with xorb [true; false; false; false]
                          [false; false; true; false])
           [false; false; true; false]
  = ret (Bool.eqb false true).
Proof.
  destruct (commutes_product [true; false; false; false]
              [false; false; true; false] [false; false; true; false]
              eq_refl eq_refl ltac:(exists 2%nat; reflexivity)
              ltac:(simpl; lia))
    as (ca & cb & Ha & Hb & Hab).
  injection Ha as <-. injection Hb as <-. exact Hab.
Defined.

(** ** Which pairs [check_tableau_entries_commute] looks at *)

Lemma check_from_outcome (width : nat) (tableau_1 tableau_2 : list (list bool))
    (i : nat) (js : list nat) :
  Nat.Even width -> (0 < width)%nat ->
  rows_of_width width tableau_1 ->
  rows_of_width width tableau_2 ->
  (i < length tableau_1)%nat ->
  Forall (fun j => (j < length tableau_2)%nat) js ->
  check_from tableau_1 tableau_2 i js
  = ret (forallb (pair_commutes tableau_1 tableau_2 i) js).
Proof.
  intros Heven Hpos H1 H2 Hi Hjs.
  destruct (lookup_lt_is_Some_2 tableau_1 i Hi) as [row_1 Hr1].
  assert (Hw1 : length row_1 = width)
    by (eapply (proj1 (Forall_lookup _ _) H1); exact Hr1).
  induction Hjs as [|j js Hj _ IH]; [reflexivity|].
  destruct (lookup_lt_is_Some_2 tableau_2 j Hj) as [row_2 Hr2].
  assert (Hw2 : length row_2 = width)
    by (eapply (proj1 (Forall_lookup _ _) H2); exact Hr2).
  cbn [check_from forallb]. unfold pair_commutes at 1. rewrite Hr1, Hr2.
  rewrite commutes_value by (rewrite ?Hw1; done). cbn [bind ret].
  destruct (commute_value row_1 row_2); [exact IH | reflexivity].
Qed.

Lemma check_rows_outcome (width : nat) (tableau_1 tableau_2 : list (list bool))
    (n : nat) (rows : list nat) :
  Nat.Even width -> (0 < width)%nat ->
  rows_of_width width tableau_1 ->
  rows_of_width width tableau_2 ->
  (n <= length tableau_1)%nat ->
  (n <= length tableau_2)%nat ->
  Forall (fun i => (i < n)%nat) rows ->
  check_rows tableau_1 tableau_2 n rows
  = ret (forallb
           (fun i => forallb (pair_commutes tableau_1 tableau_2 i)
                             (seq i (n - i)))
           rows).
Proof.
  intros Heven Hpos H1 H2 Hn1 Hn2 Hrows.
  induction Hrows as [|i rows Hi _ IH]; [reflexivity|].
  cbn [check_rows forallb].
  rewrite (check_from_outcome width) by
    (try done; try lia; apply Forall_forall; intros j Hj;
     apply elem_of_seq in Hj; lia).
  cbn [bind ret].
  destruct (forallb _ (seq i (n - i))); [exact IH | reflexivity].
Qed.

(** X6: with fewer than two rows in the first tableau the check looks at
    nothing and answers [True], whatever the second tableau is. *)
Theorem check_tableau_entries_commute_short
    (tableau_1 tableau_2 : list (list bool)) :
  (length tableau_1 < 2)%nat ->
  check_tableau_entries_commute tableau_1 tableau_2 = ret true.
Proof.
  intros Hlen. unfold check_tableau_entries_commute.
  rewrite Nat.div_small by exact Hlen. reflexivity.
Qed.

Lemma check_tableau_entries_commute_short_witness :
  check_tableau_entries_commute [[true; false]] [[false; true]] = ret true.
Proof.
  apply check_tableau_entries_commute_short. simpl. lia.
Defined.

(** X7: on tableaus whose rows have one even width, the second with at
    least half as many rows as the first, the check returns a boolean, and
    it is [True] exactly when row [i] of the first tableau commutes with row
    [j] of the second for all [i <= j] below half the number of rows of the
    first; no other pair of rows is looked at. *)
Theorem check_tableau_entries_commute_pairs (width : nat)
    (tableau_1 tableau_2 : list (list bool)) :
  Nat.Even width -> (0 < width)%nat ->
  rows_of_width width tableau_1 ->
  rows_of_width width tableau_2 ->
  (length tableau_1 / 2 <= length tableau_2)%nat ->
  exists b,
    check_tableau_entries_commute tableau_1 tableau_2 = ret b
    /\ (b = true <->
        forall i j row_1 row_2,
          (i <= j < length tableau_1 / 2)%nat ->
          tableau_1 !! i = Some row_1 ->
          tableau_2 !! j = Some row_2 ->
          commutes row_1 row_2 = ret true).
Proof.
  intros Heven Hpos H1 H2 Hlen. unfold check_tableau_entries_commute.
  set (n := (length tableau_1 / 2)%nat) in *.
  assert (Hn1 : (n <= length tableau_1)%nat)
    by (subst n; apply Nat.Div0.div_le_upper_bound; lia).
  rewrite (check_rows_outcome width) by
    (try done; apply Forall_forall; intros i Hi; apply elem_of_seq in Hi; lia).
  eexists. split; [reflexivity|].
  rewrite forallb_forall. split.
  - intros Hall i j row_1 row_2 Hij Hr1 Hr2.
    specialize (Hall i ltac:(apply in_seq; lia)).
    rewrite forallb_forall in Hall.
    specialize (Hall j ltac:(apply in_seq; lia)).
    unfold pair_commutes in Hall. rewrite Hr1, Hr2 in Hall.
    rewrite commutes_value; [by rewrite Hall | | | ].
    + rewrite (proj1 (Forall_lookup _ _) H1 _ _ Hr1).
      by rewrite (proj1 (Forall_lookup _ _) H2 _ _ Hr2).
    + by rewrite (proj1 (Forall_lookup _ _) H1 _ _ Hr1).
    + by rewrite (proj1 (Forall_lookup _ _) H1 _ _ Hr1).
  - intros Hall i Hi. apply in_seq in Hi.
    rewrite forallb_forall. intros j Hj. apply in_seq in Hj.
    destruct (lookup_lt_is_Some_2 tableau_1 i ltac:(lia)) as [row_1 Hr1].
    destruct (lookup_lt_is_Some_2 tableau_2 j ltac:(lia)) as [row_2 Hr2].
    specialize (Hall i j row_1 row_2 ltac:(lia) Hr1 Hr2).
    unfold pair_commutes. rewrite Hr1, Hr2.
    rewrite commutes_value in Hall.
    + by injection Hall.
    + rewrite (proj1 (Forall_lookup _ _) H1 _ _ Hr1).
      by rewrite (proj1 (Forall_lookup _ _) H2 _ _ Hr2).
    + by rewrite (proj1 (Forall_lookup _ _) H1 _ _ Hr1).
    + by rewrite (proj1 (Forall_lookup _ _) H1 _ _ Hr1).
Qed.

Lemma check_tableau_entries_commute_pairs_witness :
  exists b,
    check_tableau_entries_commute tableau_xx tableau_zz = ret b
    /\ (b = true <->
        forall i j row_1 row_2,
          (i <= j < length tableau_xx / 2)%nat ->
          tableau_xx !! i = Some row_1 ->
          tableau_zz !! j = Some row_2 ->
          commutes row_1 row_2 = ret true).
Proof.
  apply (check_tableau_entries_commute_pairs 4).
  - exists 2%nat. reflexivity.
  - lia.
  - repeat constructor.
  - repeat constructor.
  - simpl. lia.
Defined.

(** ** Bounds kept by the ICM conversion *)

Lemma within_weaken (n m : Z) (op : GateOperation) :
  n <= m -> within n op -> within m op.
Proof.
  intros Hnm Hop. unfold within.
  eapply Forall_impl; [exact Hop|]. intros q Hq. cbn in Hq. lia.
Qed.

Lemma bounded_allocate (emit : bool) (st : icm_state) (q c : Z) :
  bounded st ->
  0 <= c <= icm_circuit_n_qubits st ->
  bounded (mkIcm (<[q := icm_circuit_n_qubits st + 1]> (compiled_qubit_index st))
                 (if emit
                  then icm_circuit st ++ [CNOT c (icm_circuit_n_qubits st + 1)]
                  else icm_circuit st)
                 (icm_circuit_n_qubits st + 1)).
Proof.
  intros (Hc & Hvals & Hout) Hcq. unfold bounded.
  cbn [compiled_qubit_index icm_circuit icm_circuit_n_qubits].
  split; [lia|]. split.
  - intros k v Hkv. destruct (decide (q = k)) as [-> | Hne].
    + rewrite lookup_insert_eq in Hkv. injection Hkv as <-. lia.
    + rewrite lookup_insert_ne in Hkv by exact Hne.
      specialize (Hvals k v Hkv). lia.
  - assert (Hold : Forall (within (icm_circuit_n_qubits st + 1 + 1))
                     (icm_circuit st)).
    { eapply Forall_impl; [exact Hout|]. intros op. apply within_weaken. lia. }
    destruct emit; [|exact Hold].
    apply Forall_app. split; [exact Hold|].
    repeat constructor; lia.
Qed.

Lemma fold_decompose_bounded (pairs : list (Z * Z)) :
  forall st,
    bounded st ->
    Forall (fun p => 0 <= p.2 <= icm_circuit_n_qubits st) pairs ->
    bounded (fold_left decompose_qubit pairs st)
    /\ icm_circuit_n_qubits (fold_left decompose_qubit pairs st)
       = icm_circuit_n_qubits st + Z.of_nat (length pairs).
Proof.
  induction pairs as [|[q c] pairs IH]; intros st Hb Hp.
  - cbn. split; [exact Hb | lia].
  - apply Forall_cons in Hp as [Hc Hp]. cbn [fold_left length].
    destruct (IH (decompose_qubit st (q, c))) as [Hb' Hn'].
    + exact (bounded_allocate true st q c Hb Hc).
    + eapply Forall_impl; [exact Hp|]. intros p. cbn. lia.
    + split; [exact Hb'|]. rewrite Hn'. cbn. lia.
Qed.

Lemma fold_reset_bounded (pairs : list (Z * Z)) :
  forall st,
    bounded st ->
    Forall (fun p => 0 <= p.2 <= icm_circuit_n_qubits st) pairs ->
    bounded (fold_left reset_qubit pairs st)
    /\ icm_circuit_n_qubits (fold_left reset_qubit pairs st)
       = icm_circuit_n_qubits st + Z.of_nat (length pairs).
Proof.
  induction pairs as [|[q c] pairs IH]; intros st Hb Hp.
  - cbn. split; [exact Hb | lia].
  - apply Forall_cons in Hp as [Hc Hp]. cbn [fold_left length].
    destruct (IH (reset_qubit st (q, c))) as [Hb' Hn'].
    + exact (bounded_allocate false st q c Hb Hc).
    + eapply Forall_impl; [exact Hp|]. intros p. cbn. lia.
    + split; [exact Hb'|]. rewrite Hn'. cbn. lia.
Qed.

Lemma lookup_all_values (index : gmap Z Z) (qubits indices : list Z) :
  lookup_all index qubits = ret indices ->
  Forall (fun v => exists k, index !! k = Some v) indices.
Proof.
  revert indices. induction qubits as [|q qs IH]; intros indices.
  - intros [= <-]. constructor.
  - cbn [lookup_all]. destruct (index !! q) as [v|] eqn:Hq; [|discriminate].
    destruct (lookup_all index qs) as [e | vs]; [discriminate|].
    intros [= <-]. constructor; [by exists q | by apply IH].
Qed.

Lemma compiled_pairs_bounded (st : icm_state) (qubits : list Z) :
  bounded st ->
  Forall (fun q => 0 <= q <= icm_circuit_n_qubits st) qubits ->
  Forall (fun p => 0 <= p.2 <= icm_circuit_n_qubits st)
    (zip qubits
       (map (fun qubit => default qubit (compiled_qubit_index st !! qubit))
            qubits)).
Proof.
  intros (_ & Hvals & _) Hqs.
  induction Hqs as [|q qs Hq _ IH]; [constructor|].
  cbn [map zip zip_with]. constructor; [|exact IH].
  cbn. destruct (compiled_qubit_index st !! q) as [v|] eqn:Hv; cbn.
  - exact (Hvals q v Hv).
  - exact Hq.
Qed.

(** One turn of the loop keeps the bounds and moves the counter by the
    number of ancillas of the operation. *)
Lemma icm_step_bounded (gates_to_decompose : list string)
    (st st' : icm_state) (op : GateOperation) :
  bounded st ->
  within (icm_circuit_n_qubits st + 1) op ->
  icm_step gates_to_decompose st op = ret st' ->
  bounded st'
  /\ icm_circuit_n_qubits st'
     = icm_circuit_n_qubits st + ancilla_count gates_to_decompose [op].
Proof.
  intros Hb Hop. unfold icm_step. cbn [ancilla_count]. unfold allocates.
  assert (Hqs : Forall (fun q => 0 <= q <= icm_circuit_n_qubits st)
                  (qubit_indices op))
    by (eapply Forall_impl; [exact Hop|]; intros q; cbn; lia).
  pose proof (compiled_pairs_bounded st _ Hb Hqs) as Hpairs.
  case_bool_decide as Hdec; [|case_bool_decide as Hreset].
  - intros [= <-].
    destruct (fold_decompose_bounded _ st Hb Hpairs) as [Hb' Hn'].
    split; [exact Hb'|]. rewrite Hn', length_zip_with_l_eq by (by rewrite length_map).
    cbn. lia.
  - intros [= <-].
    destruct (fold_reset_bounded _ st Hb Hpairs) as [Hb' Hn'].
    split; [exact Hb'|]. rewrite Hn', length_zip_with_l_eq by (by rewrite length_map).
    cbn. lia.
  - destruct (lookup_all (compiled_qubit_index st) (qubit_indices op))
      as [e | indices] eqn:Hlook; [discriminate|].
    intros [= <-]. cbn [icm_circuit_n_qubits orb]. split; [|lia].
    destruct Hb as (Hc & Hvals & Hout). unfold bounded.
    cbn [compiled_qubit_index icm_circuit icm_circuit_n_qubits].
    split; [exact Hc|]. split; [exact Hvals|].
    apply Forall_app. split; [exact Hout|]. constructor; [|constructor].
    unfold within, gate_call. cbn [qubit_indices].
    eapply Forall_impl; [exact (lookup_all_values _ _ _ Hlook)|].
    intros v [k Hk]. specialize (Hvals k v Hk). cbn. lia.
Qed.

Lemma ancilla_count_nonneg (gates_to_decompose : list string)
    (ops : list GateOperation) :
  0 <= ancilla_count gates_to_decompose ops.
Proof.
  induction ops as [|op ops IH]; cbn [ancilla_count]; [lia|].
  destruct (allocates gates_to_decompose op); lia.
Qed.

Lemma foldM_icm_step_bounded (gates_to_decompose : list string) (n : Z)
    (ops : list GateOperation) :
  forall st st',
    bounded st ->
    n <= icm_circuit_n_qubits st + 1 ->
    Forall (within n) ops ->
    foldM (icm_step gates_to_decompose) st ops = ret st' ->
    bounded st'
    /\ icm_circuit_n_qubits st'
       = icm_circuit_n_qubits st + ancilla_count gates_to_decompose ops.
Proof.
  induction ops as [|op ops IH]; intros st st' Hb Hn Hops.
  - intros [= <-]. cbn. split; [exact Hb | lia].
  - apply Forall_cons in Hops as [Hop Hops]. cbn [foldM].
    destruct (icm_step gates_to_decompose st op) as [e | st1] eqn:Hstep;
      [discriminate|].
    cbn [bind]. intros Hrun.
    destruct (icm_step_bounded _ _ _ _ Hb (within_weaken _ _ _ Hn Hop) Hstep)
      as [Hb1 Hn1].
    pose proof (ancilla_count_nonneg gates_to_decompose [op]) as Hnn.
    destruct (IH st1 st' Hb1 ltac:(lia) Hops Hrun) as [Hb' Hn'].
    split; [exact Hb'|]. rewrite Hn', Hn1. cbn [ancilla_count]. lia.
Qed.

Lemma bounded_initial (circuit : Circuit) :
  0 <= n_qubits circuit -> bounded (initial_state circuit).
Proof.
  intros Hn. unfold bounded.
  cbn [initial_state compiled_qubit_index icm_circuit icm_circuit_n_qubits].
  split; [lia|]. split; [|constructor].
  intros k v Hkv.
  destruct (decide (k ∈ range (n_qubits circuit))) as [Hin | Hout].
  - rewrite (lookup_diagonal _ _ Hin) in Hkv. injection Hkv as <-.
    apply elem_of_range in Hin. lia.
  - exfalso. clear Hn. revert Hkv Hout.
    induction (range (n_qubits circuit)) as [|a l IH]; cbn [map].
    + by rewrite list_to_map_nil, lookup_empty.
    + rewrite list_to_map_cons. intros Hkv Hout.
      rewrite not_elem_of_cons in Hout. destruct Hout as [Hne Hout].
      rewrite lookup_insert_ne in Hkv by congruence. by apply IH.
Qed.

Lemma circuit_size_bound (ops : list GateOperation) (n : Z) :
  0 <= n ->
  Forall (within n) ops ->
  circuit_size_by_operations ops <= n.
Proof.
  intros Hn Hops. unfold circuit_size_by_operations.
  induction Hops as [|op ops Hop _ IH]; cbn [map concat]; [cbn; lia|].
  rewrite fold_right_app.
  induction Hop as [|q qs Hq _ IHq]; cbn [fold_right]; lia.
Qed.

(** X8: on a circuit whose qubit indices are below its size, [get_icm]
    returns a circuit, and every qubit index of it lies between zero and the
    size of the input plus the number of allocated ancillas (one per qubit
    of every decomposed operation and of every [RESET]); the size of the
    returned circuit is at most that sum. *)
Theorem get_icm_qubit_range (circuit : Circuit)
    (gates_to_decompose : list string) :
  well_sized circuit ->
  exists icm,
    get_icm circuit gates_to_decompose = ret icm
    /\ Forall (within (n_qubits circuit
                       + ancilla_count gates_to_decompose (operations circuit)))
              (operations icm)
    /\ n_qubits icm
       <= n_qubits circuit
          + ancilla_count gates_to_decompose (operations circuit).
Proof.
  intros [Hn Hops]. unfold get_icm.
  destruct (foldM_icm_step gates_to_decompose (n_qubits circuit)
              (operations circuit) (initial_state circuit) (fun q => q)
              (range (n_qubits circuit)) Hops (agree_initial circuit))
    as (st' & Hrun & _).
  { cbn [initial_state icm_circuit_n_qubits].
    by rewrite highest_index_range. }
  rewrite Hrun. cbn [bind ret]. eexists. split; [reflexivity|].
  destruct (foldM_icm_step_bounded gates_to_decompose (n_qubits circuit)
              (operations circuit) (initial_state circuit) st'
              (bounded_initial circuit Hn)
              ltac:(cbn; lia) Hops Hrun) as [(_ & _ & Hout) Hcount].
  cbn [initial_state icm_circuit_n_qubits] in Hcount.
  rewrite Hcount in Hout.
  replace (n_qubits circuit - 1
           + ancilla_count gates_to_decompose (operations circuit) + 1)
    with (n_qubits circuit
          + ancilla_count gates_to_decompose (operations circuit))
    in Hout by lia.
  cbn [Circuit_of operations n_qubits]. split; [exact Hout|].
  apply circuit_size_bound; [|exact Hout].
  pose proof (ancilla_count_nonneg gates_to_decompose (operations circuit)).
  lia.
Qed.

Lemma get_icm_qubit_range_witness :
  exists icm,
    get_icm sample_circuit default_gates_to_decompose = ret icm
    /\ Forall (within 6) (operations icm)
    /\ n_qubits icm <= 6.
Proof.
  refine (get_icm_qubit_range sample_circuit default_gates_to_decompose _).
  split; [cbn; lia|]. unfold within. cbn. repeat constructor; lia.
Defined.

Lemma allocate_length (qubits : list Z) :
  forall compiled used compiled' used' ancillas,
    allocate compiled used qubits = (compiled', used', ancillas) ->
    length ancillas = length qubits.
Proof.
  intros compiled used compiled' used' ancillas Hal.
  destruct (allocate_ancillas qubits _ _ _ _ _ Hal) as [-> _].
  by rewrite length_map, length_seq.
Qed.

Lemma icm_operations_length (gates_to_decompose : list string)
    (ops : list GateOperation) :
  forall compiled used,
    length (icm_operations gates_to_decompose compiled used ops)
    = emitted_count gates_to_decompose ops.
Proof.
  induction ops as [|op ops IH]; intros compiled used; [reflexivity|].
  cbn [icm_operations emitted_count].
  destruct (allocate compiled used (qubit_indices op))
    as [[compiled' used'] ancillas] eqn:Hal.
  apply allocate_length in Hal.
  case_bool_decide; [|case_bool_decide].
  - rewrite length_app, length_zip_with, length_map, Hal, IH. lia.
  - by rewrite IH.
  - cbn [length]. by rewrite IH.
Qed.

(** X9: on a circuit whose qubit indices are below its size, the circuit
    that [get_icm] returns has one [CNOT] for every qubit of every
    decomposed operation, nothing for a [RESET], and one operation for every
    other operation of the input. *)
Theorem get_icm_emitted_count (circuit : Circuit)
    (gates_to_decompose : list string) :
  well_sized circuit ->
  exists icm,
    get_icm circuit gates_to_decompose = ret icm
    /\ length (operations icm)
       = emitted_count gates_to_decompose (operations circuit).
Proof.
  intros [Hn Hops]. unfold get_icm.
  destruct (foldM_icm_step gates_to_decompose (n_qubits circuit)
              (operations circuit) (initial_state circuit) (fun q => q)
              (range (n_qubits circuit)) Hops (agree_initial circuit))
    as (st' & Hrun & Hst').
  { cbn [initial_state icm_circuit_n_qubits].
    by rewrite highest_index_range. }
  rewrite Hrun. cbn [bind ret]. eexists. split; [reflexivity|].
  cbn [Circuit_of operations]. rewrite Hst'.
  cbn [initial_state icm_circuit app]. apply icm_operations_length.
Qed.

Lemma get_icm_emitted_count_witness :
  exists icm,
    get_icm sample_circuit default_gates_to_decompose = ret icm
    /\ length (operations icm) = 6%nat.
Proof.
  refine (get_icm_emitted_count sample_circuit default_gates_to_decompose _).
  split; [cbn; lia|]. unfold within. cbn. repeat constructor; lia.
Defined.

(** ** The gates of the ICM circuit *)

Lemma fold_decompose_gates (Q : GateOperation -> Prop) (pairs : list (Z * Z)) :
  (forall c a, Q (CNOT c a)) ->
  forall st,
    Forall Q (icm_circuit st) ->
    Forall Q (icm_circuit (fold_left decompose_qubit pairs st)).
Proof.
  intros Hcnot. induction pairs as [|[q c] pairs IH]; intros st Hst;
    [exact Hst|].
  cbn [fold_left]. apply IH. cbn [decompose_qubit icm_circuit].
  apply Forall_app. split; [exact Hst|]. constructor; [apply Hcnot | constructor].
Qed.

Lemma fold_reset_circuit (pairs : list (Z * Z)) :
  forall st, icm_circuit (fold_left reset_qubit pairs st) = icm_circuit st.
Proof.
  induction pairs as [|[q c] pairs IH]; intros st; [reflexivity|].
  cbn [fold_left]. by rewrite IH.
Qed.

(** What holds of every [CNOT] and of every operation passed on with other
    indices holds of every operation of the output. *)
Lemma foldM_icm_step_gates (Q : GateOperation -> Prop)
    (gates_to_decompose : list string) (ops : list GateOperation) :
  (forall c a, Q (CNOT c a)) ->
  (forall op indices,
     op ∈ ops -> plain gates_to_decompose op ->
     Q (gate_call (gate op) indices)) ->
  forall st st',
    Forall Q (icm_circuit st) ->
    foldM (icm_step gates_to_decompose) st ops = ret st' ->
    Forall Q (icm_circuit st').
Proof.
  intros Hcnot. induction ops as [|op ops IH]; intros Hplain st st' Hst.
  - by intros [= <-].
  - cbn [foldM].
    destruct (icm_step gates_to_decompose st op) as [e | st1] eqn:Hstep;
      [discriminate|].
    cbn [bind]. apply IH.
    + intros op' indices Hin. apply Hplain. apply elem_of_cons. by right.
    + revert Hstep. unfold icm_step.
      case_bool_decide as Hdec; [|case_bool_decide as Hreset].
      * intros [= <-]. by apply fold_decompose_gates.
      * intros [= <-]. by rewrite fold_reset_circuit.
      * destruct (lookup_all _ _) as [e | indices]; [discriminate|].
        intros [= <-]. cbn [icm_circuit].
        apply Forall_app. split; [exact Hst|].
        constructor; [|constructor].
        apply Hplain; [apply elem_of_cons; by left | by split].
Qed.

(** X10: unless [CNOT] itself is to be decomposed, the circuit that
    [get_icm] returns contains no operation whose gate is in
    [gates_to_decompose] and no [RESET]. *)
Theorem get_icm_output_plain (circuit icm : Circuit)
    (gates_to_decompose : list string) :
  "CNOT" ∉ gates_to_decompose ->
  get_icm circuit gates_to_decompose = ret icm ->
  Forall (plain gates_to_decompose) (operations icm).
Proof.
  intros Hcnot. unfold get_icm.
  destruct (foldM _ _ _) as [e | st'] eqn:Hrun; [discriminate|].
  intros [= <-]. cbn [Circuit_of operations].
  refine (foldM_icm_step_gates (plain gates_to_decompose) gates_to_decompose
            (operations circuit) _ _ (initial_state circuit) st' _ Hrun).
  - intros c a. split; [exact Hcnot | discriminate].
  - intros op indices _ Hop. exact Hop.
  - constructor.
Qed.

Lemma get_icm_output_plain_witness :
  Forall (plain default_gates_to_decompose)
    [ mkOp (mkGate "H" []) [0]; CNOT 0 2; CNOT 2 1; CNOT 1 3;
      mkOp (mkGate "H" []) [4]; CNOT 4 5 ].
Proof.
  refine (get_icm_output_plain sample_circuit (Circuit_of _)
            default_gates_to_decompose _ eq_refl).
  intros Hin.
  repeat (apply elem_of_cons in Hin as [Hin | Hin]; [discriminate|]).
  by apply elem_of_nil in Hin.
Defined.

(** ** Circuits without anything to decompose *)

Lemma lookup_diagonal_None (l : list Z) (q : Z) :
  q ∉ l ->
  (list_to_map (map (fun i => (i, i)) l) : gmap Z Z) !! q = None.
Proof.
  induction l as [|a l IH]; intros Hq; cbn [map].
  - by rewrite list_to_map_nil, lookup_empty.
  - rewrite list_to_map_cons. rewrite not_elem_of_cons in Hq.
    destruct Hq as [Hne Hq]. rewrite lookup_insert_ne by congruence.
    by apply IH.
Qed.

Lemma beyond_range (n q : Z) : beyond n q = true <-> q ∉ range n.
Proof.
  rewrite elem_of_range. unfold beyond.
  destruct (Z.leb_spec 0 q), (Z.ltb_spec q n); cbn; split;
    (discriminate || lia || (intros; reflexivity) || (intros; lia)).
Qed.

Lemma lookup_all_initial (n : Z) (qubits : list Z) :
  lookup_all (list_to_map (map (fun i => (i, i)) (range n))) qubits
  = match find (beyond n) qubits with
    | Some q => raise (KeyError q)
    | None => ret qubits
    end.
Proof.
  induction qubits as [|q qs IH]; [reflexivity|].
  cbn [lookup_all find]. destruct (beyond n q) eqn:Hq.
  - apply beyond_range in Hq. by rewrite lookup_diagonal_None.
  - assert (Hin : q ∈ range n).
    { destruct (decide (q ∈ range n)) as [H | H]; [exact H|].
      apply beyond_range in H. congruence. }
    rewrite lookup_diagonal by exact Hin. rewrite IH.
    destruct (find (beyond n) qs); reflexivity.
Qed.

Lemma find_app_first {A : Type} (f : A -> bool) (l1 l2 : list A) :
  find f (l1 ++ l2)
  = match find f l1 with
    | Some x => Some x
    | None => find f l2
    end.
Proof.
  induction l1 as [|a l1 IH]; [reflexivity|].
  cbn [app find]. destruct (f a); [reflexivity | exact IH].
Qed.

(** On operations that are all passed on, the loop leaves the dictionary
    and the counter alone; it stops at the first qubit that is not a key. *)
Lemma foldM_icm_step_plain (gates_to_decompose : list string) (n : Z)
    (ops : list GateOperation) :
  Forall (plain gates_to_decompose) ops ->
  forall out counter,
    foldM (icm_step gates_to_decompose)
      (mkIcm (list_to_map (map (fun i => (i, i)) (range n))) out counter) ops
    = match find (beyond n) (concat (map qubit_indices ops)) with
      | Some q => raise (KeyError q)
      | None =>
          ret (mkIcm (list_to_map (map (fun i => (i, i)) (range n)))
                     (out ++ ops) counter)
      end.
Proof.
  induction 1 as [|op ops [Hgate Hreset] _ IH]; intros out counter.
  - cbn. by rewrite app_nil_r.
  - cbn [foldM map concat]. rewrite find_app_first. unfold icm_step.
    rewrite !bool_decide_eq_false_2 by assumption.
    cbn [compiled_qubit_index icm_circuit icm_circuit_n_qubits].
    rewrite lookup_all_initial.
    destruct (find (beyond n) (qubit_indices op)); [reflexivity|].
    cbn [bind ret]. rewrite IH.
    destruct (find _ _); [reflexivity|].
    rewrite <- app_assoc. cbn [app]. unfold gate_call. by destruct op.
Qed.

(** X11: on a circuit with nothing to decompose and no [RESET], [get_icm]
    raises the [KeyError] of the first qubit index that is not below the
    size of the circuit (or is negative), and returns the operations it was
    given when there is no such index. *)
Theorem get_icm_plain_outcome (circuit : Circuit)
    (gates_to_decompose : list string) :
  Forall (plain gates_to_decompose) (operations circuit) ->
  get_icm circuit gates_to_decompose
  = match find (beyond (n_qubits circuit))
               (concat (map qubit_indices (operations circuit))) with
    | Some q => raise (KeyError q)
    | None => ret (Circuit_of (operations circuit))
    end.
Proof.
  intros Hplain. unfold get_icm, initial_state.
  rewrite (foldM_icm_step_plain _ _ _ Hplain).
  destruct (find _ _); reflexivity.
Qed.

Lemma get_icm_plain_outcome_witness :
  get_icm (mkCircuit [mkOp (mkGate "H" []) [1]; CNOT 1 7; CNOT 9 0] 2)
          default_gates_to_decompose
  = raise (KeyError 7).
Proof.
  refine (get_icm_plain_outcome
            (mkCircuit [mkOp (mkGate "H" []) [1]; CNOT 1 7; CNOT 9 0] 2)
            default_gates_to_decompose _).
  cbn. repeat constructor; try discriminate; intros Hin;
    repeat (apply elem_of_cons in Hin as [Hin | Hin]; [discriminate|]);
    by apply elem_of_nil in Hin.
Defined.

Lemma index_below_size (ops : list GateOperation) (op : GateOperation)
    (q : Z) :
  op ∈ ops -> q ∈ qubit_indices op -> q < circuit_size_by_operations ops.
Proof.
  intros Hop Hq. unfold circuit_size_by_operations.
  assert (Hin : q ∈ concat (map qubit_indices ops)).
  { apply list_elem_of_In, in_concat. exists (qubit_indices op).
    split; [apply in_map; by apply list_elem_of_In | by apply list_elem_of_In]. }
  clear Hop Hq. induction (concat (map qubit_indices ops)) as [|a l IH].
  - by apply elem_of_nil in Hin.
  - cbn [fold_right]. apply elem_of_cons in Hin as [-> | Hin]; [lia|].
    specialize (IH Hin). lia.
Qed.

(** X12: with the default gates, converting twice is converting once: on a
    circuit whose qubit indices are below its size, [get_icm] applied to the
    circuit it returned returns that circuit again. *)
Theorem get_icm_idempotent (circuit icm : Circuit) :
  well_sized circuit ->
  get_icm circuit default_gates_to_decompose = ret icm ->
  get_icm icm default_gates_to_decompose = ret icm.
Proof.
  intros [Hn Hops] Hicm.
  assert (Hplain : Forall (plain default_gates_to_decompose) (operations icm)).
  { revert Hicm. unfold get_icm.
    destruct (foldM _ _ _) as [e | st'] eqn:Hrun; [discriminate|].
    intros [= <-]. cbn [Circuit_of operations].
    refine (foldM_icm_step_gates (plain default_gates_to_decompose) _
              (operations circuit) _ _ (initial_state circuit) st' _ Hrun).
    - intros c a. split; [|discriminate]. intros Hin.
      repeat (apply elem_of_cons in Hin as [Hin | Hin]; [discriminate|]).
      by apply elem_of_nil in Hin.
    - intros op indices _ Hop. exact Hop.
    - constructor. }
  revert Hicm Hplain. unfold get_icm at 1.
  destruct (foldM _ _ _) as [e | st'] eqn:Hrun; [discriminate|].
  intros [= <-] Hplain. cbn [Circuit_of operations] in Hplain.
  destruct (foldM_icm_step_bounded default_gates_to_decompose
              (n_qubits circuit) (operations circuit) (initial_state circuit)
              st' (bounded_initial circuit Hn) ltac:(cbn; lia) Hops Hrun)
    as [(_ & _ & Hout) _].
  unfold get_icm, initial_state, Circuit_of at 1 2.
  cbn [operations n_qubits].
  rewrite (foldM_icm_step_plain _ _ _ Hplain).
  destruct (find _ _) as [q|] eqn:Hfind; [|reflexivity].
  exfalso. apply find_some in Hfind as [Hin Hbeyond].
  apply in_concat in Hin as (qs & Hqs & Hq).
  apply in_map_iff in Hqs as (op & <- & Hop).
  apply list_elem_of_In in Hop. apply list_elem_of_In in Hq.
  pose proof (index_below_size _ _ _ Hop Hq) as Hlt.
  pose proof (proj1 (Forall_forall _ _) Hout op Hop) as Hw.
  pose proof (proj1 (Forall_forall _ _) Hw q Hq) as Hq0. cbn in Hq0.
  unfold beyond in Hbeyond.
  destruct (Z.leb_spec 0 q), (Z.ltb_spec q (circuit_size_by_operations
                                             (icm_circuit st')));
    cbn in Hbeyond; try discriminate; lia.
Qed.

Lemma get_icm_idempotent_witness :
  get_icm (Circuit_of
             [ mkOp (mkGate "H" []) [0]; CNOT 0 2; CNOT 2 1; CNOT 1 3;
               mkOp (mkGate "H" []) [4]; CNOT 4 5 ])
          default_gates_to_decompose
  = ret (Circuit_of
           [ mkOp (mkGate "H" []) [0]; CNOT 0 2; CNOT 2 1; CNOT 1 3;
             mkOp (mkGate "H" []) [4]; CNOT 4 5 ]).
Proof.
  refine (get_icm_idempotent sample_circuit _ _ eq_refl).
  split; [cbn; lia|]. unfold within. cbn. repeat constructor; lia.
Defined.

(** ** More on the reference tableau *)

Section MoreTargetFacts.

Context {TableauSimulator NumpyTableau : Type}.
Variable stim_call :
  stim_method -> list Z -> TableauSimulator -> TableauSimulator.
Variable get_tableau_from_stim_simulator : TableauSimulator -> NumpyTableau.

Lemma foldM_target_step_handled (ops : list GateOperation) :
  Forall (fun op => handled op = true) ops ->
  forall sim,
    foldM (target_step stim_call) sim ops
    = ret (apply_corresponding stim_call sim ops).
Proof.
  induction 1 as [|op ops Hop _ IH]; intros sim; [reflexivity|].
  cbn [foldM]. rewrite target_step_handled, Hop. cbn [bind ret].
  rewrite IH. by rewrite (apply_corresponding_cons stim_call sim op ops).
Qed.

Lemma apply_corresponding_app (sim : TableauSimulator)
    (ops_1 ops_2 : list GateOperation) :
  apply_corresponding stim_call sim (ops_1 ++ ops_2)
  = apply_corresponding stim_call
      (apply_corresponding stim_call sim ops_1) ops_2.
Proof. unfold apply_corresponding. apply fold_left_app. Qed.

Lemma foldM_app {S X : Type} (f : S -> X -> result S) (xs ys : list X) :
  forall s,
    foldM f s (xs ++ ys) = bind (foldM f s xs) (fun s' => foldM f s' ys).
Proof.
  induction xs as [|x xs IH]; intros s; [reflexivity|].
  cbn [app foldM]. destruct (f s x) as [e | s']; [reflexivity|].
  cbn [bind]. apply IH.
Qed.

(** X13: the reference tableau of two circuits one after the other: when
    every gate of the first is handled, running both from a simulator is
    running the second from the simulator the first leaves; the sizes of
    the circuits play no role. *)
Theorem get_target_tableau_sequence (sim : TableauSimulator)
    (ops_1 ops_2 : list GateOperation) (n n_2 : Z) :
  Forall (fun op => handled op = true) ops_1 ->
  get_target_tableau sim stim_call get_tableau_from_stim_simulator
    (mkCircuit (ops_1 ++ ops_2) n)
  = get_target_tableau (apply_corresponding stim_call sim ops_1) stim_call
      get_tableau_from_stim_simulator (mkCircuit ops_2 n_2).
Proof.
  intros H1. unfold get_target_tableau. cbn [operations].
  rewrite foldM_app, (foldM_target_step_handled _ H1). reflexivity.
Qed.

(** X14: identity gates leave no trace: a circuit and the circuit without
    its [I] operations have the same reference tableau, or fail with the
    same error. *)
Theorem get_target_tableau_skips_identity (sim : TableauSimulator)
    (circuit : Circuit) :
  get_target_tableau sim stim_call get_tableau_from_stim_simulator circuit
  = get_target_tableau sim stim_call get_tableau_from_stim_simulator
      (mkCircuit
         (List.filter (fun op => negb (String.eqb (name (gate op)) "I"))
                      (operations circuit))
         (n_qubits circuit)).
Proof.
  unfold get_target_tableau. cbn [operations]. f_equal.
  revert sim. induction (operations circuit) as [|op ops IH]; intros sim;
    [reflexivity|].
  cbn [List.filter foldM].
  destruct (String.eqb_spec (name (gate op)) "I") as [HI | HI]; cbn [negb].
  - unfold target_step at 1. rewrite HI. cbn [String.eqb bind ret].
    replace (String.eqb "I" "I") with true by reflexivity. cbn [bind ret].
    apply IH.
  - cbn [foldM]. destruct (target_step stim_call sim op); [reflexivity|].
    cbn [bind]. apply IH.
Qed.

(** X15: a circuit whose gates are each handled by [get_target_tableau] or
    taken away by [get_icm] (decomposed, or [RESET]), and whose qubit
    indices are below its size, goes through both: [get_icm] with the
    default gates returns a circuit, and the reference tableau of that
    circuit is computed without a [ValueError]. *)
Theorem get_icm_then_target_tableau (sim : TableauSimulator)
    (circuit : Circuit) :
  well_sized circuit ->
  Forall (fun op => handled op = true
                    \/ allocates default_gates_to_decompose op = true)
         (operations circuit) ->
  exists icm,
    get_icm circuit default_gates_to_decompose = ret icm
    /\ get_target_tableau sim stim_call get_tableau_from_stim_simulator icm
       = ret (get_tableau_from_stim_simulator
                (apply_corresponding stim_call sim (operations icm))).
Proof.
  intros [Hn Hops] Hgates. unfold get_icm.
  destruct (foldM_icm_step default_gates_to_decompose (n_qubits circuit)
              (operations circuit) (initial_state circuit) (fun q => q)
              (range (n_qubits circuit)) Hops (agree_initial circuit))
    as (st' & Hrun & _).
  { cbn [initial_state icm_circuit_n_qubits].
    by rewrite highest_index_range. }
  rewrite Hrun. cbn [bind ret]. eexists. split; [reflexivity|].
  unfold get_target_tableau. cbn [Circuit_of operations].
  rewrite foldM_target_step_handled; [reflexivity|].
  refine (foldM_icm_step_gates (fun op => handled op = true) _
            (operations circuit) _ _ (initial_state circuit) st' _ Hrun).
  - reflexivity.
  - intros op indices Hin [Hgate Hreset].
    destruct (proj1 (Forall_forall _ _) Hgates op Hin) as [H | H].
    + exact H.
    + unfold allocates in H.
      rewrite !bool_decide_eq_false_2 in H by assumption. discriminate.
  - constructor.
Qed.

End MoreTargetFacts.

Lemma get_target_tableau_sequence_witness :
  get_target_tableau [] recorded_call (fun sim => sim)
    (mkCircuit ([mkOp (mkGate "H" []) [0]] ++ [CNOT 0 1]) 2)
  = get_target_tableau [(stim_h, [0])] recorded_call (fun sim => sim)
      (mkCircuit [CNOT 0 1] 2).
Proof.
  refine (get_target_tableau_sequence recorded_call (fun sim => sim) []
            [mkOp (mkGate "H" []) [0]] [CNOT 0 1] 2 2 _).
  repeat constructor.
Defined.

Lemma get_icm_then_target_tableau_witness :
  exists icm,
    get_icm sample_circuit default_gates_to_decompose = ret icm
    /\ get_target_tableau [] recorded_call (fun sim => sim) icm
       = ret (apply_corresponding recorded_call [] (operations icm)).
Proof.
  refine (get_icm_then_target_tableau recorded_call (fun sim => sim) []
            sample_circuit _ _).
  - split; [cbn; lia|]. unfold within. cbn. repeat constructor; lia.
  - cbn. repeat constructor; (by left) || (by right).
Defined.

(** ** More on the single factorized QPE costing *)

Section MoreOpenFermionFacts.

Import OpenFermion.

Context {Matrix Eri Factors Real Duration : Type}.
Context {CostEstimate AlgorithmParameters : Type}.
Variable shape0 : Matrix -> Z.
Variable transpose_2301 : Eri -> Eri.
Variable allclose : Eri -> Eri -> bool.
Variable sf_factorize : Eri -> Z -> result (Eri * Factors).
Variable compute_lambda : Matrix -> Eri -> Factors -> result Real.
Variable sf_compute_cost :
  Z -> Real -> Real -> Z -> Real -> Z -> result (Z * Z * Z).
Variable cost_estimator :
  Z -> Z -> Duration -> result (CostEstimate * AlgorithmParameters).
Variable physical_qubit_count : CostEstimate -> Z.
Variable duration_seconds : CostEstimate -> Z.
Variable algorithm_failure_probability : CostEstimate -> Real.
Variable max_allocated_logical_qubits : AlgorithmParameters -> Z.
Variable logical_data_qubit_distance : AlgorithmParameters -> Z.
Variable magic_state_factory_details : AlgorithmParameters -> string.

Abbreviation costing :=
  (get_single_factorized_qpe_toffoli_and_qubit_cost (Duration := Duration)
     shape0 sf_factorize compute_lambda sf_compute_cost).

Abbreviation estimate :=
  (get_single_factorized_qpe_resource_estimate
     shape0 transpose_2301 allclose sf_factorize compute_lambda
     sf_compute_cost cost_estimator physical_qubit_count duration_seconds
     algorithm_failure_probability max_allocated_logical_qubits
     logical_data_qubit_distance magic_state_factory_details).

(** The costing when its four calls return. *)
Lemma two_pass_steps
    (h1 : Matrix) (eri : Eri) (rank : Z) (dE chi : Real)
    (eri_rr : Eri) (LR : Factors) (lam : Real)
    (stps1 toffoli1 qubits1 stps2 toffoli2 qubits2 : Z)
    (log : list (event Matrix Eri Factors Real Duration)) :
  sf_factorize eri rank = ret (eri_rr, LR) ->
  compute_lambda h1 eri_rr LR = ret lam ->
  sf_compute_cost (shape0 h1 * 2) lam dE rank chi 20000
    = ret (stps1, toffoli1, qubits1) ->
  sf_compute_cost (shape0 h1 * 2) lam dE rank chi stps1
    = ret (stps2, toffoli2, qubits2) ->
  costing h1 eri rank dE chi log
  = (ret (toffoli2, qubits2),
     log ++ [ Factorize eri rank;
              ComputeLambda h1 eri_rr LR;
              ComputeCost (shape0 h1 * 2) lam dE rank chi 20000;
              ComputeCost (shape0 h1 * 2) lam dE rank chi stps1 ]).
Proof.
  intros Hf Hl Hc1 Hc2.
  unfold get_single_factorized_qpe_toffoli_and_qubit_cost, tbind, call, tret.
  rewrite Hf. cbn [ret]. rewrite Hl. cbn [ret]. rewrite Hc1. cbn [ret fst].
  rewrite Hc2. cbn [ret]. by rewrite <- !app_assoc.
Qed.

(** X16: when the integrals are symmetric and every call into the packages
    returns, the estimate does, in this order: the factorization, lambda,
    the two costings, the two printed lines (Toffoli count, then logical
    qubits) and the physical cost estimator, called on the logical qubits
    first and the Toffoli count second; it returns the record built from the
    best cost and the best parameters, with no decoder information. *)
Theorem resource_estimate_run
    (h1 : Matrix) (eri : Eri) (rank : Z) (cycle_time : Duration)
    (dE chi : Real) (eri_rr : Eri) (LR : Factors) (lam : Real)
    (stps1 toffoli1 qubits1 stps2 toffoli qubits : Z)
    (best_cost : CostEstimate) (best_params : AlgorithmParameters) :
  allclose (transpose_2301 eri) eri = true ->
  sf_factorize eri rank = ret (eri_rr, LR) ->
  compute_lambda h1 eri_rr LR = ret lam ->
  sf_compute_cost (shape0 h1 * 2) lam dE rank chi 20000
    = ret (stps1, toffoli1, qubits1) ->
  sf_compute_cost (shape0 h1 * 2) lam dE rank chi stps1
    = ret (stps2, toffoli, qubits) ->
  cost_estimator qubits toffoli cycle_time = ret (best_cost, best_params) ->
  estimate h1 eri rank cycle_time dE chi []
  = (ret (mkResourceInfo Real AlgorithmParameters
            (physical_qubit_count best_cost)
            (max_allocated_logical_qubits best_params)
            (duration_seconds best_cost)
            (logical_data_qubit_distance best_params)
            (algorithm_failure_probability best_cost)
            None
            (magic_state_factory_details best_params)
            best_params),
     [ Factorize eri rank;
       ComputeLambda h1 eri_rr LR;
       ComputeCost (shape0 h1 * 2) lam dE rank chi 20000;
       ComputeCost (shape0 h1 * 2) lam dE rank chi stps1;
       Printed "Number of Toffoli's is:" toffoli;
       Printed "Number of logical qubits is:" qubits;
       CostEstimator qubits toffoli cycle_time ]).
Proof.
  intros Hsym Hf Hl Hc1 Hc2 Hest.
  unfold get_single_factorized_qpe_resource_estimate. rewrite Hsym.
  cbn [negb]. unfold tbind at 1.
  rewrite (two_pass_steps h1 eri rank dE chi eri_rr LR lam stps1 toffoli1
             qubits1 stps2 toffoli qubits [] Hf Hl Hc1 Hc2).
  unfold tbind, print, call, tret, ret. cbv beta iota. cbn [app].
  rewrite Hest. reflexivity.
Qed.

End MoreOpenFermionFacts.

Lemma resource_estimate_run_witness :
  OpenFermion.get_single_factorized_qpe_resource_estimate
    (fun h1 => h1) toy_transpose toy_allclose
    toy_factorize toy_lambda toy_compute_cost toy_cost_estimator
    (fun c => c) (fun c => c) (fun c => c) (fun p => p) (fun p => p)
    (fun _ => "toy") 2 0 3 tt 1 10 []
  = (ret (OpenFermion.mkResourceInfo Z Z 7000 40004 7000 40004 7000 None
            "toy" 40004),
     [ OpenFermion.Factorize 0 3;
       OpenFermion.ComputeLambda 2 0 3;
       OpenFermion.ComputeCost 4 5 1 3 10 20000;
       OpenFermion.ComputeCost 4 5 1 3 10 10001;
       OpenFermion.Printed "Number of Toffoli's is:" 40004;
       OpenFermion.Printed "Number of logical qubits is:" 7;
       OpenFermion.CostEstimator 7 40004 tt ]).
Proof.
  exact (resource_estimate_run (fun h1 => h1) toy_transpose toy_allclose
           toy_factorize toy_lambda toy_compute_cost toy_cost_estimator
           (fun c => c) (fun c => c) (fun c => c) (fun p => p) (fun p => p)
           (fun _ => "toy") 2 0 3 tt 1 10 0 3 5 10001 80000 7 5001 40004 7
           7000 40004 eq_refl eq_refl eq_refl eq_refl eq_refl eq_refl).
Defined.


(** ** The tableau of a graph state *)

(** A matrix of [n] rows of [n] entries. *)
Lemma np_index_within (n k : nat) :
  (k < n)%nat -> np_index n (Z.of_nat k) = ret k.
Proof.
  intros Hk. unfold np_index.
  destruct (Z.leb_spec 0 (Z.of_nat k)); [|lia].
  destruct (Z.ltb_spec (Z.of_nat k) (Z.of_nat n)); [|lia].
  cbn [andb]. by rewrite Nat2Z.id.
Qed.

Lemma np_index_below (n : nat) (i : Z) (k : nat) :
  np_index n i = ret k -> (k < n)%nat.
Proof.
  unfold np_index.
  destruct (Z.leb_spec 0 i), (Z.ltb_spec i (Z.of_nat n)); cbn [andb];
    try (intros [= <-]; lia);
    destruct (Z.leb_spec (- Z.of_nat n) i), (Z.ltb_spec i 0); cbn [andb];
    try discriminate; intros [= <-]; lia.
Qed.

Lemma np_index_error (n : nat) (i : Z) (e : exn) :
  np_index n i = raise e -> e = IndexError.
Proof.
  unfold np_index.
  destruct ((0 <=? i) && (i <? Z.of_nat n)); [discriminate|].
  destruct ((- Z.of_nat n <=? i) && (i <? 0)); [discriminate|].
  by intros [= <-].
Qed.

Lemma np_index_outside (n : nat) (i : Z) :
  ~ (- Z.of_nat n <= i < Z.of_nat n) -> np_index n i = raise IndexError.
Proof.
  intros Hi. unfold np_index.
  destruct (Z.leb_spec 0 i), (Z.ltb_spec i (Z.of_nat n)); cbn [andb]; try lia;
    destruct (Z.leb_spec (- Z.of_nat n) i), (Z.ltb_spec i 0); cbn [andb];
    try lia; reflexivity.
Qed.

Lemma entry_alter (m : list (list bool)) (n i j i' j' : nat) :
  length m = n -> rows_of_width n m ->
  (i < n)%nat -> (j < n)%nat ->
  entry (alter (fun row => <[j := true]> row) i m) i' j'
  = entry m i' j' || (Nat.eqb i' i && Nat.eqb j' j).
Proof.
  intros Hlen Hrows Hi Hj. unfold entry.
  destruct (Nat.eqb_spec i' i) as [-> | Hne].
  - rewrite list_lookup_alter_eq.
    destruct (lookup_lt_is_Some_2 m i ltac:(lia)) as [row Hrow].
    rewrite Hrow. cbn [fmap option_fmap option_map].
    assert (Hw : length row = n)
      by exact (proj1 (Forall_lookup _ _) Hrows _ _ Hrow).
    destruct (Nat.eqb_spec j' j) as [-> | Hnej].
    + rewrite list_lookup_insert_eq by lia. cbn. by rewrite orb_true_r.
    + rewrite list_lookup_insert_ne by congruence. cbn. by rewrite orb_false_r.
  - rewrite list_lookup_alter_ne by congruence. cbn. by rewrite orb_false_r.
Qed.

Lemma alter_square (m : list (list bool)) (n i j : nat) :
  length m = n -> rows_of_width n m ->
  length (alter (fun row => <[j := true]> row) i m) = n
  /\ rows_of_width n (alter (fun row => <[j := true]> row) i m).
Proof.
  intros Hlen Hrows. split; [by rewrite length_alter|].
  unfold rows_of_width. apply Forall_alter; [exact Hrows|].
  intros row _ Hw. by rewrite length_insert.
Qed.

(** One pair of assignments of the inner loop. *)
Lemma set_both_entries (m : list (list bool)) (n vertex_id neighbor : nat) :
  length m = n -> rows_of_width n m ->
  (vertex_id < n)%nat -> (neighbor < n)%nat ->
  exists m',
    bind (set_entry m (Z.of_nat neighbor) (Z.of_nat vertex_id))
         (fun zs' => set_entry zs' (Z.of_nat vertex_id) (Z.of_nat neighbor))
    = ret m'
    /\ length m' = n /\ rows_of_width n m'
    /\ forall i j,
         entry m' i j
         = entry m i j
           || (Nat.eqb i neighbor && Nat.eqb j vertex_id)
           || (Nat.eqb i vertex_id && Nat.eqb j neighbor).
Proof.
  intros Hlen Hrows Hv Hnb. unfold set_entry.
  rewrite Hlen, !np_index_within by assumption. cbn [bind ret].
  destruct (alter_square m n neighbor vertex_id Hlen Hrows) as [Hlen1 Hrows1].
  rewrite Hlen1, !np_index_within by assumption. cbn [bind ret].
  destruct (alter_square _ n vertex_id neighbor Hlen1 Hrows1) as [Hlen2 Hrows2].
  eexists. split; [reflexivity|]. repeat split; try assumption.
  intros i j.
  rewrite (entry_alter _ n) by assumption.
  by rewrite (entry_alter _ n) by assumption.
Qed.

Lemma add_neighbors_entries (n vertex_id : nat) (neighbors : list Z) :
  (vertex_id < n)%nat ->
  Forall (fun neighbor => 0 <= neighbor < Z.of_nat n) neighbors ->
  forall m,
    length m = n -> rows_of_width n m ->
    exists m',
      add_neighbors (Z.of_nat vertex_id) m neighbors = ret m'
      /\ length m' = n /\ rows_of_width n m'
      /\ forall i j,
           entry m' i j
           = entry m i j
             || (Nat.eqb j vertex_id && existsb (Z.eqb (Z.of_nat i)) neighbors)
             || (Nat.eqb i vertex_id && existsb (Z.eqb (Z.of_nat j)) neighbors).
Proof.
  intros Hv Hnbs. unfold add_neighbors.
  induction Hnbs as [|nb nbs Hnb _ IH]; intros m Hlen Hrows.
  - exists m. repeat split; try assumption. intros i j. cbn.
    by rewrite !andb_false_r, !orb_false_r.
  - cbn [foldM].
    destruct (set_both_entries m n vertex_id (Z.to_nat nb) Hlen Hrows Hv
                ltac:(lia)) as (m1 & Hm1 & Hlen1 & Hrows1 & Hent1).
    rewrite Z2Nat.id in Hm1 by lia. rewrite Hm1. cbn [bind].
    destruct (IH m1 Hlen1 Hrows1) as (m' & Hm' & Hlen' & Hrows' & Hent').
    exists m'. repeat split; try assumption.
    intros i j. rewrite Hent', Hent1. cbn [existsb].
    assert (Hi : Z.eqb (Z.of_nat i) nb = Nat.eqb i (Z.to_nat nb)).
    { destruct (Z.eqb_spec (Z.of_nat i) nb), (Nat.eqb_spec i (Z.to_nat nb));
        try reflexivity; lia. }
    assert (Hj : Z.eqb (Z.of_nat j) nb = Nat.eqb j (Z.to_nat nb)).
    { destruct (Z.eqb_spec (Z.of_nat j) nb), (Nat.eqb_spec j (Z.to_nat nb));
        try reflexivity; lia. }
    rewrite Hi, Hj.
    destruct (entry m i j), (Nat.eqb i (Z.to_nat nb)),
      (Nat.eqb j (Z.to_nat nb)), (Nat.eqb i vertex_id), (Nat.eqb j vertex_id),
      (existsb (Z.eqb (Z.of_nat i)) nbs), (existsb (Z.eqb (Z.of_nat j)) nbs);
      reflexivity.
Qed.

Lemma existsb_orb {A : Type} (f g : A -> bool) (l : list A) :
  existsb (fun x => f x || g x) l = existsb f l || existsb g l.
Proof.
  induction l as [|a l IH]; [reflexivity|]. cbn [existsb]. rewrite IH.
  destruct (f a), (g a), (existsb f l), (existsb g l); reflexivity.
Qed.

Lemma existsb_numbered {A : Type} (f : A -> bool) (l : list A) :
  forall a i,
    existsb (fun p : nat * A => Nat.eqb i p.1 && f p.2) (zip (seq a (length l)) l)
    = if (a <=? i)%nat
      then match l !! (i - a)%nat with Some x => f x | None => false end
      else false.
Proof.
  induction l as [|x l IH]; intros a i.
  - cbn. by destruct (a <=? i)%nat.
  - cbn [length seq zip zip_with existsb]. fold (zip (seq (S a) (length l)) l).
    rewrite IH. cbn [fst snd].
    destruct (Nat.eqb_spec i a) as [-> | Hne].
    + rewrite Nat.leb_refl, Nat.sub_diag. cbn [lookup list_lookup andb].
      destruct (Nat.leb_spec (S a) a); [lia|]. by rewrite orb_false_r.
    + cbn [andb orb].
      destruct (Nat.leb_spec (S a) i), (Nat.leb_spec a i); try lia;
        try reflexivity.
      replace (i - a)%nat with (S (i - S a)) by lia. reflexivity.
Qed.

Lemma entry_zeros (n i j : nat) : entry (zeros n) i j = false.
Proof.
  unfold entry, zeros.
  destruct (replicate n (replicate n false) !! i) as [row|] eqn:Hrow;
    [|reflexivity].
  apply lookup_replicate in Hrow as [-> _].
  destruct (replicate n false !! j) as [b|] eqn:Hb; [|reflexivity].
  by apply lookup_replicate in Hb as [-> _].
Qed.

Lemma zeros_square (n : nat) :
  length (zeros n) = n /\ rows_of_width n (zeros n).
Proof.
  unfold zeros, rows_of_width. split; [apply length_replicate|].
  apply Forall_replicate. apply length_replicate.
Qed.

Lemma graph_fold_entries (n : nat) (numbered : list (nat * (Z * list Z))) :
  Forall (fun p => (p.1 < n)%nat
                   /\ Forall (fun nb => 0 <= nb < Z.of_nat n) p.2.2)
         numbered ->
  forall m,
    length m = n -> rows_of_width n m ->
    exists m',
      foldM (fun zs p => add_neighbors (Z.of_nat p.1) zs p.2.2) m numbered
      = ret m'
      /\ length m' = n /\ rows_of_width n m'
      /\ forall i j,
           entry m' i j
           = entry m i j
             || existsb
                  (fun p =>
                     (Nat.eqb j p.1 && existsb (Z.eqb (Z.of_nat i)) p.2.2)
                     || (Nat.eqb i p.1 && existsb (Z.eqb (Z.of_nat j)) p.2.2))
                  numbered.
Proof.
  induction 1 as [|[vid [class nbs]] numbered [Hv Hnbs] _ IH];
    intros m Hlen Hrows.
  - exists m. repeat split; try assumption. intros i j. cbn.
    by rewrite orb_false_r.
  - cbn [foldM fst snd] in *.
    destruct (add_neighbors_entries n vid nbs Hv Hnbs m Hlen Hrows)
      as (m1 & Hm1 & Hlen1 & Hrows1 & Hent1).
    rewrite Hm1. cbn [bind].
    destruct (IH m1 Hlen1 Hrows1) as (m' & Hm' & Hlen' & Hrows' & Hent').
    exists m'. repeat split; try assumption.
    intros i j. rewrite Hent', Hent1. cbn [existsb fst snd].
    by rewrite !orb_assoc.
Qed.

Lemma numbered_within (vertices : list (Z * list Z)) :
  neighbors_within vertices ->
  Forall (fun p : nat * (Z * list Z) =>
            (p.1 < length vertices)%nat
            /\ Forall (fun nb => 0 <= nb < Z.of_nat (length vertices)) p.2.2)
         (zip (seq 0 (length vertices)) vertices).
Proof.
  intros Hw. apply Forall_forall. intros [i v] Hin.
  apply list_elem_of_lookup in Hin as [k Hk].
  apply lookup_zip_with_Some in Hk as (i' & v' & [= <- <-] & Hi & Hv).
  apply lookup_seq in Hi as [-> Hlt]. cbn [fst snd]. split; [lia|].
  exact (proj1 (Forall_lookup _ _) Hw _ _ Hv).
Qed.

(** The z block after the loops over the vertices and their neighbors. *)
Lemma graph_zs_entries (vertices : list (Z * list Z)) :
  neighbors_within vertices ->
  exists all_zs,
    graph_zs vertices = ret all_zs
    /\ length all_zs = length vertices
    /\ rows_of_width (length vertices) all_zs
    /\ (forall i j, entry all_zs i j = adjacent vertices i j).
Proof.
  intros Hw. unfold graph_zs.
  destruct (zeros_square (length vertices)) as [Hlen0 Hrows0].
  destruct (graph_fold_entries (length vertices) _ (numbered_within _ Hw)
              (zeros (length vertices)) Hlen0 Hrows0)
    as (m' & Hm' & Hlen' & Hrows' & Hent').
  exists m'. split; [exact Hm'|]. split; [exact Hlen'|].
  split; [exact Hrows'|].
  assert (Hadj : forall i j, entry m' i j = adjacent vertices i j).
  { intros i j. rewrite Hent', entry_zeros. cbn [orb].
    rewrite existsb_orb.
    rewrite (existsb_numbered
               (fun v : Z * list Z => existsb (Z.eqb (Z.of_nat i)) v.2)
               vertices 0 j).
    rewrite (existsb_numbered
               (fun v : Z * list Z => existsb (Z.eqb (Z.of_nat j)) v.2)
               vertices 0 i).
    cbn [Nat.leb]. rewrite !Nat.sub_0_r.
    unfold adjacent, lists_neighbor. apply orb_comm. }
  exact Hadj.
Qed.

(** X18: when every neighbor is the number of a vertex, the z block that
    [get_stabilizer_tableau_from_vertices] builds is the adjacency matrix
    of the graph made symmetric: its entry (i, j) is set exactly when vertex
    [i] lists [j] or vertex [j] lists [i]; in particular it is symmetric
    even when the lists are not. *)
Theorem graph_zs_adjacent (vertices : list (Z * list Z)) :
  neighbors_within vertices ->
  exists all_zs,
    graph_zs vertices = ret all_zs
    /\ length all_zs = length vertices
    /\ rows_of_width (length vertices) all_zs
    /\ (forall i j, entry all_zs i j = adjacent vertices i j)
    /\ (forall i j, entry all_zs i j = entry all_zs j i).
Proof.
  intros Hw.
  destruct (graph_zs_entries vertices Hw) as (zs & Hzs & Hlen & Hrows & Hadj).
  exists zs. repeat split; try assumption.
  intros i j. rewrite !Hadj. unfold adjacent. apply orb_comm.
Qed.

Lemma graph_zs_adjacent_witness :
  exists all_zs,
    graph_zs [(1, [1; 2]); (2, []); (3, [])] = ret all_zs
    /\ length all_zs = 3%nat
    /\ rows_of_width 3 all_zs
    /\ (forall i j,
          entry all_zs i j = adjacent [(1, [1; 2]); (2, []); (3, [])] i j)
    /\ (forall i j, entry all_zs i j = entry all_zs j i).
Proof.
  apply (graph_zs_adjacent [(1, [1; 2]); (2, []); (3, [])]).
  unfold neighbors_within. cbn. repeat constructor; lia.
Defined.

Lemma parity_unit_row (z : list bool) :
  forall a i,
    parity (zip_with andb (map (fun k => Nat.eqb k i) (seq a (length z))) z)
    = if (a <=? i)%nat then default false (z !! (i - a)%nat) else false.
Proof.
  induction z as [|b z IH]; intros a i.
  - cbn. by destruct (a <=? i)%nat.
  - cbn [length seq map zip_with parity fold_right].
    fold (parity (zip_with andb (map (fun k => Nat.eqb k i)
                                     (seq (S a) (length z))) z)).
    rewrite IH.
    destruct (Nat.eqb_spec a i) as [-> | Hne].
    + rewrite Nat.leb_refl, Nat.sub_diag. cbn [lookup list_lookup default].
      destruct (Nat.leb_spec (S i) i); [lia|]. cbn. by destruct b.
    + cbn [andb].
      destruct (Nat.leb_spec (S a) i), (Nat.leb_spec a i); try lia;
        try reflexivity.
      replace (i - a)%nat with (S (i - S a)) by lia. cbn [lookup list_lookup].
      by destruct (default false (z !! (i - S a)%nat)).
Qed.

Lemma lookup_identity (n i : nat) (xs : list bool) :
  identity n !! i = Some xs ->
  (i < n)%nat /\ xs = map (fun k => Nat.eqb k i) (seq 0 n).
Proof.
  unfold identity. intros H.
  change (map ?f ?l) with (f <$> l) in H.
  apply list_lookup_fmap_Some in H as (k & -> & Hk).
  apply lookup_seq in Hk as [-> Hlt]. split; [lia | reflexivity].
Qed.

(** X19: the stabilizers that [get_stabilizer_tableau_from_vertices] hands
    to stim, read as rows (x | z), commute pairwise under the [commutes] of
    the same file, whatever the lists of neighbors are (as long as every
    neighbor is the number of a vertex). *)
Theorem graph_stabilizers_commute (vertices : list (Z * list Z))
    (all_zs : list (list bool)) (i j : nat) (xs_i zs_i xs_j zs_j : list bool) :
  neighbors_within vertices ->
  graph_zs vertices = ret all_zs ->
  zip (identity (length vertices)) all_zs !! i = Some (xs_i, zs_i) ->
  zip (identity (length vertices)) all_zs !! j = Some (xs_j, zs_j) ->
  commutes (xs_i ++ zs_i) (xs_j ++ zs_j) = ret true.
Proof.
  intros Hw Hzs Hi Hj.
  destruct (graph_zs_entries vertices Hw)
    as (m & Hm & Hlen & Hrows & Hadj).
  rewrite Hzs in Hm. injection Hm as <-.
  assert (Hsym : forall i j, entry all_zs i j = entry all_zs j i)
    by (intros a b; rewrite !Hadj; unfold adjacent; apply orb_comm).
  set (n := length vertices) in *.
  apply lookup_zip_with_Some in Hi as (x1 & z1 & Heq1 & Hx1 & Hz1).
  apply lookup_zip_with_Some in Hj as (x2 & z2 & Heq2 & Hx2 & Hz2).
  injection Heq1 as E1 E2. injection Heq2 as E3 E4. subst xs_i zs_i xs_j zs_j.
  apply lookup_identity in Hx1 as [Hin ->].
  apply lookup_identity in Hx2 as [Hjn ->].
  assert (Hw1 : length z1 = n) by exact (proj1 (Forall_lookup _ _) Hrows _ _ Hz1).
  assert (Hw2 : length z2 = n) by exact (proj1 (Forall_lookup _ _) Hrows _ _ Hz2).
  set (e1 := map (fun k => Nat.eqb k i) (seq 0 n)).
  set (e2 := map (fun k => Nat.eqb k j) (seq 0 n)).
  assert (He1 : length e1 = n) by (subst e1; by rewrite length_map, length_seq).
  assert (He2 : length e2 = n) by (subst e2; by rewrite length_map, length_seq).
  rewrite commutes_value.
  - unfold commute_value.
    replace (length (e1 ++ z1) / 2)%nat with n.
    2:{ rewrite length_app, He1, Hw1.
        apply Nat.div_unique_exact; lia. }
    rewrite (take_app_length' e1 z1 n), (drop_app_length' e1 z1 n),
      (take_app_length' e2 z2 n), (drop_app_length' e2 z2 n) by congruence.
    rewrite (zip_with_andb_comm z1 e2).
    pose proof (parity_unit_row z2 0 i) as P1.
    pose proof (parity_unit_row z1 0 j) as P2.
    rewrite Hw2 in P1. rewrite Hw1 in P2.
    subst e1 e2. rewrite P1, P2. cbn [Nat.leb]. rewrite !Nat.sub_0_r.
    specialize (Hsym i j). unfold entry in Hsym. rewrite Hz1, Hz2 in Hsym.
    rewrite Hsym. by rewrite xorb_nilpotent.
  - rewrite !length_app. lia.
  - exists n. rewrite length_app. lia.
  - rewrite length_app. lia.
Qed.

Lemma graph_stabilizers_commute_witness :
  commutes ([true; false; false] ++ [false; true; true])
           ([false; true; false] ++ [true; false; false])
  = ret true.
Proof.
  refine (graph_stabilizers_commute [(1, [1; 2]); (2, []); (3, [])]
            [[false; true; true]; [true; false; false]; [true; false; false]]
            0 1 _ _ _ _ _ eq_refl eq_refl eq_refl).
  unfold neighbors_within. cbn. repeat constructor; lia.
Defined.

(** ** Failures of the graph tableau *)

Lemma np_index_inside (n : nat) (i : Z) (k : nat) :
  np_index n i = ret k -> - Z.of_nat n <= i < Z.of_nat n.
Proof.
  intros H. destruct (decide (- Z.of_nat n <= i < Z.of_nat n)) as [Hi | Hi];
    [exact Hi|].
  rewrite (np_index_outside n i Hi) in H. discriminate.
Qed.

Lemma set_entry_ret (m m' : list (list bool)) (a b : Z) :
  set_entry m a b = ret m' ->
  length m' = length m
  /\ - Z.of_nat (length m) <= a < Z.of_nat (length m)
  /\ - Z.of_nat (length m) <= b < Z.of_nat (length m).
Proof.
  unfold set_entry.
  destruct (np_index (length m) a) as [e | i] eqn:Ha; [discriminate|].
  destruct (np_index (length m) b) as [e | j] eqn:Hb; [discriminate|].
  intros [= <-]. rewrite length_alter.
  eauto using np_index_inside.
Qed.

Lemma set_entry_error (m : list (list bool)) (a b : Z) (e : exn) :
  set_entry m a b = raise e -> e = IndexError.
Proof.
  unfold set_entry.
  destruct (np_index (length m) a) as [e1 | i] eqn:Ha.
  - intros [= <-]. exact (np_index_error _ _ _ Ha).
  - destruct (np_index (length m) b) as [e2 | j] eqn:Hb; [|discriminate].
    intros [= <-]. exact (np_index_error _ _ _ Hb).
Qed.

Lemma foldM_error {S X : Type} (f : S -> X -> result S) (E : exn)
    (xs : list X) :
  (forall s x e, f s x = raise e -> e = E) ->
  forall s e, foldM f s xs = raise e -> e = E.
Proof.
  intros Hf. induction xs as [|x xs IH]; intros s e; [discriminate|].
  cbn [foldM]. destruct (f s x) as [e1 | s1] eqn:Hstep.
  - intros [= <-]. exact (Hf _ _ _ Hstep).
  - apply IH.
Qed.

Lemma add_neighbors_ret (vertex_id : Z) (neighbors : list Z) :
  forall m m',
    add_neighbors vertex_id m neighbors = ret m' ->
    length m' = length m
    /\ Forall (fun nb => - Z.of_nat (length m) <= nb < Z.of_nat (length m))
              neighbors.
Proof.
  unfold add_neighbors.
  induction neighbors as [|nb nbs IH]; intros m m'.
  - intros [= <-]. split; [reflexivity | constructor].
  - cbn [foldM].
    destruct (set_entry m nb vertex_id) as [e | m1] eqn:H1; [discriminate|].
    cbn [bind].
    destruct (set_entry m1 vertex_id nb) as [e | m2] eqn:H2; [discriminate|].
    intros Hrest.
    apply set_entry_ret in H1 as (L1 & Hnb & _).
    apply set_entry_ret in H2 as (L2 & _ & _).
    destruct (IH m2 m' Hrest) as [L' Hnbs].
    rewrite L2, L1 in L', Hnbs. split; [exact L'|].
    constructor; assumption.
Qed.

Lemma add_neighbors_error (vertex_id : Z) (neighbors : list Z)
    (m : list (list bool)) (e : exn) :
  add_neighbors vertex_id m neighbors = raise e -> e = IndexError.
Proof.
  unfold add_neighbors. apply foldM_error. intros s x e'.
  destruct (set_entry s x vertex_id) as [e1 | s1] eqn:H1.
  - intros [= <-]. exact (set_entry_error _ _ _ _ H1).
  - cbn [bind]. apply set_entry_error.
Qed.

Lemma graph_fold_ret (numbered : list (nat * (Z * list Z))) :
  forall m m',
    foldM (fun zs p => add_neighbors (Z.of_nat p.1) zs p.2.2) m numbered
    = ret m' ->
    Forall (fun p =>
              Forall (fun nb =>
                        - Z.of_nat (length m) <= nb < Z.of_nat (length m))
                     p.2.2)
           numbered.
Proof.
  induction numbered as [|p numbered IH]; intros m m'; [constructor|].
  cbn [foldM].
  destruct (add_neighbors (Z.of_nat p.1) m p.2.2) as [e | m1] eqn:H1;
    [discriminate|].
  cbn [bind]. intros Hrest.
  apply add_neighbors_ret in H1 as [L1 Hnbs].
  specialize (IH m1 m' Hrest). rewrite L1 in IH.
  constructor; assumption.
Qed.

Section GraphTableauFacts.

Context {TableauSimulator StimTableau NumpyTableau : Type}.
Variable new_simulator : TableauSimulator.
Variable from_stabilizers :
  list (list bool * list bool) -> result StimTableau.
Variable tableau_inverse : StimTableau -> StimTableau.
Variable set_inverse_tableau :
  StimTableau -> TableauSimulator -> TableauSimulator.
Variable stim_call :
  stim_method -> list Z -> TableauSimulator -> TableauSimulator.
Variable get_tableau_from_stim_simulator : TableauSimulator -> NumpyTableau.

Abbreviation from_vertices :=
  (get_stabilizer_tableau_from_vertices new_simulator from_stabilizers
     tableau_inverse set_inverse_tableau stim_call
     get_tableau_from_stim_simulator).

(** X20: a neighbor that is not an index of the matrix (outside of
    [-n, n) for [n] vertices) makes [get_stabilizer_tableau_from_vertices]
    raise [IndexError], before stim is asked anything. *)
Theorem from_vertices_neighbor_outside (vertices : list (Z * list Z)) :
  Exists (fun vertex =>
            Exists (fun nb => ~ (- Z.of_nat (length vertices) <= nb
                                 < Z.of_nat (length vertices)))
                   vertex.2)
         vertices ->
  graph_zs vertices = raise IndexError
  /\ from_vertices vertices = raise IndexError.
Proof.
  intros Hbad.
  assert (Hzs : graph_zs vertices = raise IndexError).
  { unfold graph_zs.
    destruct (foldM _ _ _) as [e | m'] eqn:Hrun.
    - f_equal. revert Hrun. apply foldM_error.
      intros s p e'. apply add_neighbors_error.
    - exfalso. apply graph_fold_ret in Hrun.
      rewrite (proj1 (zeros_square _)) in Hrun.
      apply Exists_exists in Hbad as (v & Hv & Hnb).
      apply Exists_exists in Hnb as (nb & Hnb & Hout).
      apply list_elem_of_lookup in Hv as [k Hk].
      assert (Hz : zip (seq 0 (length vertices)) vertices !! k = Some (k, v)).
      { apply lookup_zip_with_Some. exists k, v. split; [reflexivity|].
        split; [|exact Hk]. apply lookup_seq. split; [reflexivity|].
        by apply lookup_lt_Some in Hk. }
      pose proof (proj1 (Forall_lookup _ _) Hrun _ _ Hz) as Hall.
      cbn [snd] in Hall.
      exact (Hout (proj1 (Forall_forall _ _) Hall nb Hnb)). }
  split; [exact Hzs|].
  unfold get_stabilizer_tableau_from_vertices. by rewrite Hzs.
Qed.

End GraphTableauFacts.

Lemma from_vertices_neighbor_outside_witness :
  graph_zs [(1, [1; 3]); (2, []); (3, [0])] = raise IndexError
  /\ get_stabilizer_tableau_from_vertices (@nil (stim_method * list Z))
       (fun paulis => ret paulis) (fun t => t) (fun _ sim => sim)
       recorded_call (fun sim => sim) [(1, [1; 3]); (2, []); (3, [0])]
     = raise IndexError.
Proof.
  refine (from_vertices_neighbor_outside _ _ _ _ _ _
            [(1, [1; 3]); (2, []); (3, [0])] _).
  apply Exists_cons_hd. cbn [snd]. apply Exists_cons_tl, Exists_cons_hd.
  cbn. lia.
Defined.

(** ** The local Cliffords of the vertices *)

Lemma collect_cliffords_concat (vertices : list (Z * list Z)) :
  collect_cliffords vertices
  = concat (map (fun vertex => appended_cliffords (vertex.1 - 1)) vertices).
Proof.
  unfold collect_cliffords.
  assert (H : forall acc,
             fold_left (fun cliffords vertex =>
                          cliffords ++ appended_cliffords (vertex.1 - 1))
                       vertices acc
             = acc ++ concat (map (fun vertex =>
                                     appended_cliffords (vertex.1 - 1))
                                  vertices)).
  { induction vertices as [|v vs IH]; intros acc; cbn [fold_left map concat].
    - by rewrite app_nil_r.
    - rewrite IH. by rewrite <- app_assoc. }
  exact (H []).
Qed.

Lemma appended_cliffords_class (class : Z) :
  1 <= class <= 6 ->
  appended_cliffords (class - 1) = [class_cliffords class].
Proof.
  intros H.
  assert (Hc : class = 1 \/ class = 2 \/ class = 3 \/ class = 4
               \/ class = 5 \/ class = 6) by lia.
  destruct Hc as [-> | [-> | [-> | [-> | [-> | ->]]]]]; reflexivity.
Qed.

Lemma appended_cliffords_none (class : Z) :
  ~ (1 <= class <= 6) -> appended_cliffords (class - 1) = [].
Proof.
  intros H. unfold appended_cliffords.
  repeat (match goal with
          | |- context [Z.eqb ?a ?b] => destruct (Z.eqb_spec a b); [lia|]
          end).
  reflexivity.
Qed.

Lemma appended_cliffords_length (class : Z) :
  (length (appended_cliffords (class - 1)) <= 1)%nat.
Proof.
  destruct (decide (1 <= class <= 6)) as [H | H].
  - by rewrite appended_cliffords_class.
  - rewrite appended_cliffords_none by exact H. cbn. lia.
Qed.

Lemma collect_cliffords_valid (vertices : list (Z * list Z)) :
  classes_within vertices ->
  collect_cliffords vertices
  = map (fun vertex => class_cliffords vertex.1) vertices.
Proof.
  intros Hc. rewrite collect_cliffords_concat.
  induction Hc as [|v vs Hv _ IH]; [reflexivity|].
  cbn [map concat]. rewrite IH, appended_cliffords_class by exact Hv.
  reflexivity.
Qed.

Lemma collect_cliffords_short (vertices : list (Z * list Z)) :
  Exists (fun vertex => ~ (1 <= vertex.1 <= 6)) vertices ->
  (length (collect_cliffords vertices) < length vertices)%nat.
Proof.
  intros Hbad. rewrite collect_cliffords_concat.
  assert (Hle : forall vs : list (Z * list Z),
             (length (concat (map (fun vertex =>
                                     appended_cliffords (vertex.1 - 1)) vs))
              <= length vs)%nat).
  { induction vs as [|v vs IH]; cbn [map concat length]; [lia|].
    rewrite length_app. pose proof (appended_cliffords_length v.1). lia. }
  induction Hbad as [v vs Hv | v vs _ IH]; cbn [map concat length];
    rewrite length_app.
  - rewrite appended_cliffords_none by exact Hv. cbn [length].
    specialize (Hle vs). lia.
  - pose proof (appended_cliffords_length v.1). lia.
Qed.

Section GraphCliffordFacts.

Context {TableauSimulator StimTableau NumpyTableau : Type}.
Variable new_simulator : TableauSimulator.
Variable from_stabilizers :
  list (list bool * list bool) -> result StimTableau.
Variable tableau_inverse : StimTableau -> StimTableau.
Variable set_inverse_tableau :
  StimTableau -> TableauSimulator -> TableauSimulator.
Variable stim_call :
  stim_method -> list Z -> TableauSimulator -> TableauSimulator.
Variable get_tableau_from_stim_simulator : TableauSimulator -> NumpyTableau.

Abbreviation tableau_from_vertices :=
  (get_stabilizer_tableau_from_vertices new_simulator from_stabilizers
     tableau_inverse set_inverse_tableau stim_call
     get_tableau_from_stim_simulator).

Lemma apply_vertex_cliffords_short (cliffords : list (list string))
    (qubits : list nat) :
  Exists (fun i => (length cliffords <= i)%nat) qubits ->
  forall sim,
    apply_vertex_cliffords stim_call cliffords sim qubits = raise IndexError.
Proof.
  unfold apply_vertex_cliffords.
  induction 1 as [i qubits Hi | i qubits _ IH]; intros sim; cbn [foldM].
  - by rewrite (lookup_ge_None_2 cliffords i Hi).
  - destruct (cliffords !! i); [|reflexivity]. cbn [bind ret]. apply IH.
Qed.

Lemma apply_vertex_cliffords_valid (f : Z * list Z -> list string)
    (vertices : list (Z * list Z)) :
  forall (before : list (list string)) (sim : TableauSimulator),
    apply_vertex_cliffords stim_call (before ++ map f vertices) sim
      (seq (length before) (length vertices))
    = ret (fold_left
             (fun s (p : nat * (Z * list Z)) =>
                apply_cliffords stim_call p.1 s (f p.2))
             (zip (seq (length before) (length vertices)) vertices) sim).
Proof.
  unfold apply_vertex_cliffords.
  induction vertices as [|v vs IH]; intros before sim; [reflexivity|].
  cbn [length seq map foldM zip zip_with fold_left fst snd].
  rewrite list_lookup_middle by reflexivity. cbn [bind ret].
  specialize (IH (before ++ [f v]) (apply_cliffords stim_call (length before)
                                      sim (f v))).
  rewrite length_app, Nat.add_1_r, <- app_assoc in IH. exact IH.
Qed.

(** X21: a vertex whose class is not one of 1 to 6 appends nothing to the
    list of Cliffords, so the list is too short for the last loop: when the
    graph and its stabilizers are accepted, the function raises
    [IndexError] instead of returning a tableau. *)
Theorem from_vertices_class_outside (vertices : list (Z * list Z))
    (all_zs : list (list bool)) (tableau : StimTableau) :
  Exists (fun vertex => ~ (1 <= vertex.1 <= 6)) vertices ->
  graph_zs vertices = ret all_zs ->
  from_stabilizers (zip (identity (length vertices)) all_zs) = ret tableau ->
  tableau_from_vertices vertices = raise IndexError.
Proof.
  intros Hbad Hzs Hstab. unfold get_stabilizer_tableau_from_vertices.
  rewrite Hzs. cbn [bind ret]. rewrite Hstab. cbn [bind ret].
  rewrite apply_vertex_cliffords_short; [reflexivity|].
  pose proof (collect_cliffords_short vertices Hbad) as Hshort.
  apply Exists_exists. exists (length (collect_cliffords vertices)).
  split; [|lia]. apply elem_of_seq. lia.
Qed.

(** X22: when every class is one of 1 to 6 and the graph and its
    stabilizers are accepted, the function returns the tableau of the
    simulator that starts from the inverse of the inverse tableau of the
    stabilizers and receives, vertex after vertex, the operations of the
    class of the vertex on the qubit of the vertex. *)
Theorem from_vertices_run (vertices : list (Z * list Z))
    (all_zs : list (list bool)) (tableau : StimTableau) :
  classes_within vertices ->
  graph_zs vertices = ret all_zs ->
  from_stabilizers (zip (identity (length vertices)) all_zs) = ret tableau ->
  tableau_from_vertices vertices
  = ret (get_tableau_from_stim_simulator
           (fold_left
              (fun sim (numbered : nat * (Z * list Z)) =>
                 apply_cliffords stim_call numbered.1 sim
                   (class_cliffords numbered.2.1))
              (zip (seq 0 (length vertices)) vertices)
              (set_inverse_tableau (tableau_inverse tableau) new_simulator))).
Proof.
  intros Hc Hzs Hstab. unfold get_stabilizer_tableau_from_vertices.
  rewrite Hzs. cbn [bind ret]. rewrite Hstab. cbn [bind ret].
  rewrite (collect_cliffords_valid vertices Hc).
  rewrite (apply_vertex_cliffords_valid
             (fun vertex => class_cliffords vertex.1) vertices []).
  reflexivity.
Qed.

End GraphCliffordFacts.

Lemma from_vertices_class_outside_witness :
  get_stabilizer_tableau_from_vertices (@nil (stim_method * list Z))
    (fun paulis => ret paulis) (fun t => t) (fun _ sim => sim)
    recorded_call (fun sim => sim) [(4, [1]); (0, []); (6, [])]
  = raise IndexError.
Proof.
  refine (from_vertices_class_outside _ (fun paulis => ret paulis) _ _ _ _
            [(4, [1]); (0, []); (6, [])] _ _ _ eq_refl eq_refl).
  apply Exists_cons_tl, Exists_cons_hd. cbn. lia.
Defined.

Lemma from_vertices_run_witness :
  get_stabilizer_tableau_from_vertices (@nil (stim_method * list Z))
    (fun paulis => ret paulis) (fun t => t) (fun _ sim => sim)
    recorded_call (fun sim => sim) [(4, [1]); (2, []); (6, [])]
  = ret [ (stim_h, [0]); (stim_s, [0]); (stim_h, [0]);
          (stim_s, [1]); (stim_h, [2]); (stim_s, [2]) ].
Proof.
  refine (from_vertices_run _ (fun paulis => ret paulis) _ _ _ _
            [(4, [1]); (2, []); (6, [])] _ _ _ eq_refl eq_refl).
  unfold classes_within.
  repeat (apply Forall_cons; split; [cbn; lia|]). apply Forall_nil_2.
Defined.


(** ** The comparison of tableaus, once more *)


